(** * Plugin discovery: [findPluginSpecs]

    A shallow embedding of the plugin discovery pipeline
    (plugin_discovery/find_plugin_specs.js) and the properties its
    specification states about it.

    The pipeline is written with RxJS observables.  An observable that
    completes after finitely many notifications is embedded as a monadic
    fold over its notifications (the subscriber is the folding function, its
    private state the accumulator), so that the order in which the
    operators run their side effects on the shared configuration service is
    a consequence of the operators and not of the way the stages are listed.

    The four streams the source shares between its stages ([config$],
    [packageJson$], [pack$], [extendConfig$]) are [config_shared],
    [packageJson_shared], [pack_shared] and [extendConfig_shared]; the
    channels [findPluginSpecs] returns keep their names, with [_obs] for
    the [$]. *)

From Stdlib Require Import String Ascii List Bool Arith Lia Permutation.
Import ListNotations.
Open Scope string_scope.
Open Scope list_scope.

Set Implicit Arguments.

(* ================================================================== *)
(** ** JavaScript strings *)

Module Js.

(** The line feed and the double quote, as the template literal of the
    conflict message has them. *)
Definition newline : string := String (ascii_of_nat 10) EmptyString.
Definition dquote : string := String (ascii_of_nat 34) EmptyString.

(** [Array.prototype.join]. *)
Fixpoint join (sep : string) (parts : list string) : string :=
  match parts with
  | [] => ""
  | [p] => p
  | p :: rest => (p ++ sep ++ join sep rest)%string
  end.

(** [String.prototype.startsWith]. *)
Fixpoint startsWith (s sub : string) : bool :=
  match sub, s with
  | EmptyString, _ => true
  | String _ _, EmptyString => false
  | String c sub', String d s' => Ascii.eqb c d && startsWith s' sub'
  end.

(** [String.prototype.includes]. *)
Fixpoint includes (s sub : string) : bool :=
  startsWith s sub ||
  match s with
  | EmptyString => false
  | String _ s' => includes s' sub
  end.

End Js.

(* ================================================================== *)
(** ** A [Map] keyed by strings

    [groupSpecsById] iterates over a JavaScript [Map], which keeps its keys
    in insertion order; setting a key that is present keeps its place. *)

Module JsMap.

Definition t (V : Type) : Type := list (string * V).

Definition empty (V : Type) : t V := [].

Fixpoint get (V : Type) (m : t V) (key : string) : option V :=
  match m with
  | [] => None
  | (k, v) :: m' => if String.eqb key k then Some v else get m' key
  end.

Fixpoint set (V : Type) (m : t V) (key : string) (value : V) : t V :=
  match m with
  | [] => [(key, value)]
  | (k, v) :: m' =>
      if String.eqb key k then (k, value) :: m'
      else (k, v) :: set m' key value
  end.

End JsMap.

(* ================================================================== *)
(** ** Arrival order of asynchronous sources

    [Observable.merge] over asynchronous sources, and [mergeMap] over
    promises, deliver in an order the program does not control.  A
    [Schedule] is the oracle that picks, at each step, which of the sources
    that still hold a value delivers next; each source keeps its own
    order. *)

Definition Schedule := list nat.

(** The head of the [k]-th source that still holds a value (the last such
    source when there are fewer), and the sources that remain. *)
Fixpoint take_from (A : Type) (k : nat) (sources : list (list A))
  : option (A * list (list A)) :=
  match sources with
  | [] => None
  | [] :: rest => take_from k rest
  | (x :: xs) :: rest =>
      match k with
      | O => Some (x, xs :: rest)
      | S k' =>
          match take_from k' rest with
          | Some (y, rest') => Some (y, (x :: xs) :: rest')
          | None => Some (x, xs :: rest)
          end
      end
  end.

Fixpoint interleave (A : Type) (fuel : nat) (sched : Schedule)
  (sources : list (list A)) : list A :=
  match fuel with
  | O => []
  | S fuel' =>
      match take_from (hd 0 sched) sources with
      | None => []
      | Some (x, sources') => x :: interleave fuel' (tl sched) sources'
      end
  end.

(** [Observable.merge(...sources)]: one notification per value held by the
    sources, so the fuel is their total number. *)
Definition merge (A : Type) (sched : Schedule) (sources : list (list A))
  : list A :=
  interleave (length (concat sources)) sched sources.

(** The order in which promises started in the order [pending] settle. *)
Definition settle (A : Type) (sched : Schedule) (pending : list A) : list A :=
  merge sched (map (fun a => [a]) pending).

(* ================================================================== *)
(** ** Observables over a world *)

(** What ends a stream with an error notification. *)
Inductive Failure : Type :=
| ThrownError (message : string)   (* [throw new Error(message)] *)
| EmptyError                       (* [last()] on a stream without values *)
| TypeError.                       (* an inner value that is not a stream *)

Inductive Ending : Type :=
| Completed
| Failed (f : Failure).

(** The notifications one subscriber has received. *)
Record Stream (A : Type) : Type := mkStream {
  emitted : list A;
  ending : Ending
}.

Section Rx.

(** The mutable world the pipeline runs in. *)
Variable W : Type.

Definition M (A : Type) : Type := W -> A * W.

Definition ret (A : Type) (a : A) : M A := fun w => (a, w).

Definition bind (A B : Type) (m : M A) (k : A -> M B) : M B :=
  fun w => let (a, w') := m w in k a w'.

Definition modify (f : W -> W) : M unit := fun w => (tt, f w).

Definition gets (A : Type) (f : W -> A) : M A := fun w => (f w, w).

(** Runs [next] over the values of an array in order. *)
Fixpoint foldM (A R : Type) (next : A -> R -> M R) (l : list A) (r : R)
  : M R :=
  match l with
  | [] => ret r
  | a :: l' => bind (next a r) (foldM next l')
  end.

(** Runs [task] over the values of an array in order and collects the
    results. *)
Fixpoint mapM (A B : Type) (task : A -> M B) (l : list A) : M (list B) :=
  match l with
  | [] => ret []
  | a :: l' =>
      bind (task a) (fun b => bind (mapM task l') (fun bs => ret (b :: bs)))
  end.

(** An observable is what it does to a subscriber: [next] is called on
    each value with the subscriber's state, and the ending is delivered
    with the final state. *)
Definition Observable (A : Type) : Type :=
  forall R : Type, (A -> R -> M R) -> R -> M (R * Ending).

(** [Observable.from(array)]. *)
Definition from (A : Type) (l : list A) : Observable A :=
  fun R next r0 => bind (foldM next l r0) (fun r => ret (r, Completed)).

(** A subscriber that records every notification. *)
Definition subscribe (A : Type) (o : Observable A) : M (Stream A) :=
  bind (o (list A) (fun a acc => ret (acc ++ [a])) [])
       (fun p => ret (mkStream (fst p) (snd p))).

(** [.map(project)]. *)
Definition map_ (A B : Type) (project : A -> M B) (source : Observable A)
  : Observable B :=
  fun R next r0 =>
    source R (fun a r => bind (project a) (fun b => next b r)) r0.

(** [.do(effect)]. *)
Definition do_ (A : Type) (effect : A -> M unit) (source : Observable A)
  : Observable A :=
  fun R next r0 =>
    source R (fun a r => bind (effect a) (fun _ => next a r)) r0.

(** [.toArray()]: one array when the source completes, nothing but the
    error when it fails. *)
Definition toArray (A : Type) (source : Observable A)
  : Observable (list A) :=
  fun R next r0 =>
    bind (source (list A) (fun a acc => ret (acc ++ [a])) [])
         (fun p =>
            match snd p with
            | Completed => bind (next (fst p) r0) (fun r => ret (r, Completed))
            | Failed f => ret (r0, Failed f)
            end).

(** What the subscriber of [mergeMap] does with a value of the source: a
    subscriber that has been sent an error ignores what the source still
    delivers; an inner array is handed on value by value; an inner value
    that throws ends the stream. *)
Definition mergeMap_next (A B R : Type) (project : A -> M (Failure + list B))
  (next : B -> R -> M R) (a : A) (s : R * option Failure)
  : M (R * option Failure) :=
  match snd s with
  | Some _ => ret s
  | None =>
      bind (project a) (fun inner =>
        match inner with
        | inl f => ret (fst s, Some f)
        | inr array =>
            bind (foldM next array (fst s)) (fun r' => ret (r', None))
        end)
  end.

(** [.mergeMap(project)] for a [project] that returns an array or throws. *)
Definition mergeMap (A B : Type) (project : A -> M (Failure + list B))
  (source : Observable A) : Observable B :=
  fun R next r0 =>
    bind (source (R * option Failure)%type (mergeMap_next project next)
            (r0, None))
         (fun p =>
            ret (fst (fst p),
                 match snd (fst p) with
                 | Some f => Failed f
                 | None => snd p
                 end)).

(** [.mergeMap(async a => task(a))].  The source delivers synchronously,
    so every promise is pending before the first one settles; promises
    settle in the order the schedule picks, and each result is delivered
    as its promise settles.  Promises are not cancelled by an error: they
    still run, their results are dropped. *)
Definition mergeMapAsync (A B : Type) (sched : Schedule) (task : A -> M B)
  (source : Observable A) : Observable B :=
  fun R next r0 =>
    bind (source (list A) (fun a acc => ret (acc ++ [a])) [])
         (fun p =>
            match snd p with
            | Completed =>
                bind (foldM (fun a r => bind (task a) (fun b => next b r))
                            (settle sched (fst p)) r0)
                     (fun r => ret (r, Completed))
            | Failed f =>
                bind (mapM task (settle sched (fst p)))
                     (fun _ => ret (r0, Failed f))
            end).

(** A source is [Staged] by [prep] and [task] when subscribing to it
    runs [prep], which gives the values the source holds and its ending,
    and then hands each value to [task] and the result to the subscriber,
    one value after the other. *)
Definition Staged (A B : Type) (source : Observable B)
  (prep : M (list A * Ending)) (task : A -> M B) : Prop :=
  forall (R : Type) (next : B -> R -> M R) (r0 : R) (w : W),
    source R next r0 w
    = bind prep (fun p =>
        bind (foldM (fun a r => bind (task a) (fun b => next b r)) (fst p) r0)
             (fun r => ret (r, snd p))) w.

End Rx.

Declare Scope rx_scope.
Delimit Scope rx_scope with rx.
Notation "x <- m ;; k" := (bind m (fun x => k))
  (at level 61, m at next level, right associativity) : rx_scope.
Notation "m ;;; k" := (bind m (fun _ => k))
  (at level 61, right associativity) : rx_scope.
Notation "source |> operator" := (operator source)
  (at level 50, left associativity, only parsing) : rx_scope.

(** Operators on a recorded stream, for the projections that have no side
    effect. *)
Module Recorded.

(** [.mergeMap(project)] with a pure [project] returning an array. *)
Definition mergeMap (A B : Type) (project : A -> list B) (s : Stream A)
  : Stream B :=
  mkStream (flat_map project (emitted s)) (ending s).

(** The values delivered until [project] fails on a value of the source,
    and the failure. *)
Fixpoint flatten (A B : Type) (project : A -> Failure + list B)
  (l : list A) : list B * option Failure :=
  match l with
  | [] => ([], None)
  | a :: l' =>
      match project a with
      | inl f => ([], Some f)
      | inr array =>
          (array ++ fst (flatten project l'), snd (flatten project l'))
      end
  end.

(** [.mergeMap(project)] with a pure [project] that may fail. *)
Definition mergeMapInput (A B : Type) (project : A -> Failure + list B)
  (s : Stream A) : Stream B :=
  mkStream (fst (flatten project (emitted s)))
    (match snd (flatten project (emitted s)) with
     | Some f => Failed f
     | None => ending s
     end).

(** [.filter(predicate)]. *)
Definition filter (A : Type) (predicate : A -> bool) (s : Stream A)
  : Stream A :=
  mkStream (List.filter predicate (emitted s)) (ending s).

(** [.last()]: the last value when the source completes, [EmptyError]
    when it completes without one. *)
Definition last (A : Type) (s : Stream A) : Stream A :=
  match ending s with
  | Failed f => mkStream [] (Failed f)
  | Completed =>
      match rev (emitted s) with
      | [] => mkStream [] (Failed EmptyError)
      | a :: _ => mkStream [a] Completed
      end
  end.

End Recorded.

(* ================================================================== *)
(** ** The objects the pipeline handles *)

(** A plugin spec, by the four methods the pipeline calls. *)
Record PluginSpec (Config : Type) : Type := mkPluginSpec {
  getId : string;
  getPath : string;
  isVersionCompatible : string -> bool;
  isEnabled : Config -> bool
}.

Record Pack (Config : Type) : Type := mkPack {
  getPluginSpecs : list (PluginSpec Config)
}.

(** A result of the package locator: [{error?, packageJson?}].  [fr_ref]
    is the identity of the result object, which [distinct] compares when
    the result itself is the key. *)
Record FindResult (Error PackageJson : Type) : Type := mkFindResult {
  fr_ref : nat;
  fr_error : option Error;
  fr_packageJson : option PackageJson
}.

(** A result of the pack synthesizer: [{error?, pack?}]. *)
Record PackResult (Config Error : Type) : Type := mkPackResult {
  pr_error : option Error;
  pr_pack : option (Pack Config)
}.

(** ** Collaborators

    What find_plugin_specs.js imports from other modules.  The pipeline is
    verified for every behaviour of them. *)
Class Collaborators : Type := {
  Settings : Type;
  Config : Type;
  Error : Type;
  PackageJson : Type;
  Item : Type;

  (** [../server/config]: the two steps of [defaultConfig] and the three
      keys the pipeline reads with [config.get]. *)
  transformDeprecations : Settings -> Settings;
  Config_withDefaultSchema : Settings -> Config;
  get_plugins_paths : Config -> list string;
  get_plugins_scanDirs : Config -> list string;
  get_pkg_version : Config -> string;

  (** What RxJS obtains from a configuration service used as an inner
      stream: its items when it is array-like or iterable, nothing when it
      is not an Observable, Promise, Array or Iterable.  [Boolean] is the
      truthiness of an item. *)
  Config_items : Config -> option (list Item);
  Boolean : Item -> bool;

  (** [error.message], [packageJson.directoryPath], [fs.realpathSync]. *)
  message : Error -> string;
  directoryPath : PackageJson -> string;
  realpathSync : string -> string;

  (** [./plugin_pack]: the results each stream delivers, in its order. *)
  createPackageJsonAtPath_obs : string -> list (FindResult Error PackageJson);
  createPackageJsonsInDirectory_obs :
    string -> list (FindResult Error PackageJson);
  createPack_obs :
    list (FindResult Error PackageJson) -> list (PackResult Config Error);

  (** [./plugin_config]: [extendConfigService(spec, config, settings,
      logDeprecation)] gives the configuration as it leaves it and the
      messages it passed to [logDeprecation];
      [disableConfigExtension(spec, config)] gives the configuration as it
      leaves it. *)
  extendConfigService :
    PluginSpec Config -> Config -> Settings -> Config * list string;
  disableConfigExtension : PluginSpec Config -> Config -> Config;

  (** [./errors]: both predicates are applied to [result.error], which is
      [undefined] on a result without error. *)
  isInvalidDirectoryError : option Error -> bool;
  isInvalidPackError : option Error -> bool
}.

(* ================================================================== *)
(** ** find_plugin_specs.js *)

Section FindPluginSpecs.

Context {collaborators : Collaborators}.

(** The order in which the locator's results arrive and the order in
    which the extensions settle. *)
Variable discoveryOrder extensionOrder : Schedule.

(** *** The world *)

(** The calls the pipeline makes into the plugin specs and into
    [./plugin_config]. *)
Inductive Routine : Type :=
| ExtendConfigService
| IsVersionCompatible
| IsEnabled
| DisableConfigExtension.

(** One call: the routine, the spec it is made for, and the configuration
    as the call finds it. *)
Record Event : Type := mkEvent {
  routine : Routine;
  callee : PluginSpec Config;
  found : Config
}.

(** The configuration service all stages hold a reference to, and the
    calls made so far. *)
Record World : Type := mkWorld {
  shared : Config;
  log : list Event
}.

Definition call (r : Routine) (spec : PluginSpec Config) : M World unit :=
  modify (fun w => mkWorld (shared w) (log w ++ [mkEvent r spec (shared w)])).

(** *** Helpers *)

Definition defaultConfig (settings : Settings) : Config :=
  Config_withDefaultSchema (transformDeprecations settings).

Definition bufferAllResults (A : Type) (observable : Observable World A)
  : Observable World A :=
  (observable
     |> @toArray World A
     |> mergeMap (fun array => ret (inr array)))%rx.

(** What [distinct] puts in its [Set]: a string, or an object compared
    by identity. *)
Inductive DistinctKey : Type :=
| KeyString (s : string)
| KeyObject (ref : nat).

Definition DistinctKey_eqb (a b : DistinctKey) : bool :=
  match a, b with
  | KeyString s, KeyString s' => String.eqb s s'
  | KeyObject r, KeyObject r' => Nat.eqb r r'
  | _, _ => false
  end.

Definition getDistinctKeyForFindResult
  (result : FindResult Error PackageJson) : DistinctKey :=
  match fr_error result with
  | Some error => KeyString (message error)
  | None =>
      match fr_packageJson result with
      | Some packageJson =>
          KeyString (realpathSync (directoryPath packageJson))
      | None => KeyObject (fr_ref result)
      end
  end.

(** [.distinct(keySelector)]: a value passes when its key is not yet in
    the set of keys seen. *)
Fixpoint distinct_from (A : Type) (keySelector : A -> DistinctKey)
  (seen : list DistinctKey) (source : list A) : list A :=
  match source with
  | [] => []
  | a :: rest =>
      let key := keySelector a in
      if existsb (DistinctKey_eqb key) seen
      then distinct_from keySelector seen rest
      else a :: distinct_from keySelector (key :: seen) rest
  end.

Definition distinct (A : Type) (keySelector : A -> DistinctKey)
  (source : list A) : list A :=
  distinct_from keySelector [] source.

(** [specsById.has(id)] is [get] giving a group;
    [specsById.get(id).push(spec)] changes the array the map holds under
    [id], and the key keeps its place. *)
Definition groupSpecsById (specs : list (PluginSpec Config))
  : JsMap.t (list (PluginSpec Config)) :=
  fold_left
    (fun specsById spec =>
       let id := getId spec in
       match JsMap.get specsById id with
       | Some group => JsMap.set specsById id (group ++ [spec])
       | None => JsMap.set specsById id [spec]
       end)
    specs (JsMap.empty (list (PluginSpec Config))).

Definition isUnhandledError (error : option Error) : bool :=
  match error with
  | None => false
  | Some _ =>
      negb (isInvalidDirectoryError error) && negb (isInvalidPackError error)
  end.

(** The conflict check of [extendConfig$]: the [for ... of] loop over the
    groups, throwing at the first group with more than one spec. *)
Definition conflictMessage (id : string) (specs : list (PluginSpec Config))
  : string :=
  ("Multple plugins found with the id " ++ Js.dquote ++ id ++ Js.dquote
     ++ ":" ++ Js.newline
     ++ Js.join Js.newline
          (map (fun spec => "  - " ++ id ++ " at " ++ getPath spec) specs)
  )%string.

Fixpoint throwOnConflict (groups : JsMap.t (list (PluginSpec Config)))
  : option Failure :=
  match groups with
  | [] => None
  | (id, specs) :: rest =>
      if Nat.ltb 1 (length specs)
      then Some (ThrownError (conflictMessage id specs))
      else throwOnConflict rest
  end.

Definition failOnConflicts (allSpecs : list (PluginSpec Config))
  : Failure + list (PluginSpec Config) :=
  match throwOnConflict (groupSpecsById allSpecs) with
  | Some thrown => inl thrown
  | None => inr allSpecs
  end.

(** [{ spec, message }]. *)
Record Deprecation : Type := mkDeprecation {
  d_spec : PluginSpec Config;
  d_message : string
}.

(** [{ spec, deprecations }]. *)
Record Extended : Type := mkExtended {
  e_spec : PluginSpec Config;
  e_deprecations : list Deprecation
}.

(** The reference to the configuration service that the closures of one
    run capture; its content is [shared]. *)
Inductive ConfigRef : Type := SharedConfig.

Definition deref (config : ConfigRef) : M World Config := gets shared.

(** What [extendConfig$] emits. *)
Record Result : Type := mkResult {
  r_config : ConfigRef;
  r_spec : PluginSpec Config;
  r_deprecations : list Deprecation;
  enabledSpecs : list (PluginSpec Config);
  disabledSpecs : list (PluginSpec Config);
  invalidVersionSpecs : list (PluginSpec Config)
}.

(** *** [findPluginSpecs(settings, configToMutate)] *)

Section Run.

Variable settings : Settings.
Variable configToMutate : option Config.

(** The function given to [Observable.defer]. *)
Definition config_deferred : Config :=
  match configToMutate with
  | Some config => config
  | None => defaultConfig settings
  end.

(** The subject behind [shareReplay()]: the value it replays, and how
    often the deferred function has been evaluated. *)
Record ReplaySubject : Type := mkReplaySubject {
  replayed : option Config;
  evaluations : nat
}.

Definition unsubscribed : ReplaySubject := mkReplaySubject None 0.

(** [config$]: one subscription, and the value the subscriber gets. *)
Definition config_shared (subject : ReplaySubject)
  : Config * ReplaySubject :=
  match replayed subject with
  | Some config => (config, subject)
  | None =>
      let config := config_deferred in
      (config, mkReplaySubject (Some config) (S (evaluations subject)))
  end.

(** [n] subscriptions to [config$], one after the other: the values the
    subscribers get. *)
Fixpoint subscriptions (n : nat) (subject : ReplaySubject)
  : list Config * ReplaySubject :=
  match n with
  | O => ([], subject)
  | S n' =>
      let (config, subject') := config_shared subject in
      let (configs, subject'') := subscriptions n' subject' in
      (config :: configs, subject'')
  end.

(** [packageJson$], before it is projected for the caller. *)
Definition packageJson_shared (config : Config)
  : list (FindResult Error PackageJson) :=
  distinct getDistinctKeyForFindResult
    (merge discoveryOrder
       (map createPackageJsonAtPath_obs (get_plugins_paths config)
          ++ map createPackageJsonsInDirectory_obs
               (get_plugins_scanDirs config))).

(** [pack$], before it is projected for the caller. *)
Definition pack_shared (config : Config) : list (PackResult Config Error) :=
  createPack_obs (packageJson_shared config).

(** The specs of one pack result: [pack ? pack.getPluginSpecs() : []]. *)
Definition specsOf (result : PackResult Config Error)
  : list (PluginSpec Config) :=
  match pr_pack result with
  | Some pack => getPluginSpecs pack
  | None => []
  end.

(** The [async] function of the extension stage. *)
Definition extend (spec : PluginSpec Config) : M World Extended :=
  (call ExtendConfigService spec;;;
   config <- gets shared;;
   modify (fun w =>
     mkWorld (fst (extendConfigService spec config settings)) (log w));;;
   ret (mkExtended spec
          (map (mkDeprecation spec)
             (snd (extendConfigService spec config settings)))))%rx.

(** The function given to [map]: [isEnabled] is called only on a spec of
    the right version. *)
Definition classify (config : ConfigRef) (extended : Extended)
  : M World Result :=
  (let spec := e_spec extended in
   version <- (c <- deref config;; ret (get_pkg_version c));;
   call IsVersionCompatible spec;;;
   let isRightVersion := isVersionCompatible spec version in
   enabled <- (if isRightVersion
               then call IsEnabled spec;;;
                    c <- deref config;; ret (isEnabled spec c)
               else ret false);;
   ret (mkResult config spec (e_deprecations extended)
          (if enabled then [spec] else [])
          (if enabled then [] else [spec])
          (if isRightVersion then [] else [spec])))%rx.

(** The function given to [do]. *)
Definition disable (result : Result) : M World unit :=
  foldM (fun spec (_ : unit) =>
           (call DisableConfigExtension spec;;;
            modify (fun w =>
              mkWorld (disableConfigExtension spec (shared w)) (log w)))%rx)
        (disabledSpecs result) tt.

(** [extendConfig$], from the configuration service and the results of
    [pack$]. *)
Definition extendConfig_shared (config : ConfigRef)
  (packs : list (PackResult Config Error)) : Observable World Result :=
  (@from World _ packs
     |> mergeMap (fun result => ret (inr (specsOf result)))
     |> @toArray World (PluginSpec Config)
     |> mergeMap (fun allSpecs => ret (failOnConflicts allSpecs))
     |> mergeMapAsync extensionOrder extend
     |> @bufferAllResults Extended
     |> map_ (classify config)
     |> @bufferAllResults Result
     |> do_ disable)%rx.

(** What a subscriber of [extendConfig$] is handed: the result, and what
    its [config] yields as an inner stream at that moment. *)
Record Delivery : Type := mkDelivery {
  result : Result;
  inner : option (list Item)
}.

Definition deliver (r : Result) : M World Delivery :=
  (c <- deref (r_config r);; ret (mkDelivery r (Config_items c)))%rx.

(** [extendConfig$] as three passes over the specs.  That the pipeline
    amounts to this is [extendConfig_shared_passes] below. *)
Definition passes (config : ConfigRef)
  (packs : list (PackResult Config Error)) : M World (Stream Delivery) :=
  match failOnConflicts (flat_map specsOf packs) with
  | inl thrown => ret (mkStream [] (Failed thrown))
  | inr allSpecs =>
      (extended <- mapM extend (settle extensionOrder allSpecs);;
       results <- mapM (classify config) extended;;
       deliveries <- mapM (fun r => disable r;;; deliver r) results;;
       ret (mkStream deliveries Completed))%rx
  end.

(** *** The returned channels *)

Record Channels : Type := mkChannels {
  packageJson_obs : Stream PackageJson;
  pack_obs : Stream (Pack Config);
  invalidDirectoryError_obs : Stream (option Error);
  invalidPackError_obs : Stream (option Error);
  otherError_obs : Stream (option Error);
  deprecation_obs : Stream Deprecation;
  extendedConfig_obs : Stream Item;
  spec_obs : Stream (PluginSpec Config);
  disabledSpec_obs : Stream (PluginSpec Config);
  invalidVersionSpec_obs : Stream (PluginSpec Config)
}.

(** [value ? [value] : []]. *)
Definition arrayOf (A : Type) (value : option A) : list A :=
  match value with Some a => [a] | None => [] end.

(** [predicate(result.error) ? [result.error] : []]. *)
Definition errorIf (predicate : option Error -> bool)
  (r : PackResult Config Error) : list (option Error) :=
  if predicate (pr_error r) then [pr_error r] else [].

(** [result.config] as the inner stream of [mergeMap]. *)
Definition configAsStream (d : Delivery) : Failure + list Item :=
  match inner d with
  | Some items => inr items
  | None => inl TypeError
  end.

(** The ten channels, from what [packageJson$] and [pack$] have delivered
    and from the deliveries of [extendConfig$].  The discovery stage is
    that of a run in which [fs.realpathSync] and the streams of
    [./plugin_pack] return, so that [packageJson$] and [pack$] complete.
    What [packageJson$] does when [fs.realpathSync] throws is
    [packageJson_obs_throwing] below; what [createPack$] makes of a
    [packageJson$] that failed is decided in [./plugin_pack]. *)
Definition channels (packageJsons : list (FindResult Error PackageJson))
  (packs : list (PackResult Config Error)) (extended : Stream Delivery)
  : Channels :=
  let packageJson_s := mkStream packageJsons Completed in
  let pack_s := mkStream packs Completed in
  {| packageJson_obs :=
       Recorded.mergeMap (fun r => arrayOf (fr_packageJson r)) packageJson_s;
     pack_obs := Recorded.mergeMap (fun r => arrayOf (pr_pack r)) pack_s;
     invalidDirectoryError_obs :=
       Recorded.mergeMap (errorIf isInvalidDirectoryError) pack_s;
     invalidPackError_obs :=
       Recorded.mergeMap (errorIf isInvalidPackError) pack_s;
     otherError_obs := Recorded.mergeMap (errorIf isUnhandledError) pack_s;
     deprecation_obs :=
       Recorded.mergeMap (fun d => r_deprecations (result d)) extended;
     extendedConfig_obs :=
       Recorded.last
         (Recorded.filter Boolean
            (Recorded.mergeMapInput configAsStream extended));
     spec_obs :=
       Recorded.mergeMap (fun d => enabledSpecs (result d)) extended;
     disabledSpec_obs :=
       Recorded.mergeMap (fun d => disabledSpecs (result d)) extended;
     invalidVersionSpec_obs :=
       Recorded.mergeMap (fun d => invalidVersionSpecs (result d)) extended
  |}.

(** One run with every channel subscribed: what each channel has
    delivered, the world the run leaves, and the state of [config$]. *)
Record Run : Type := mkRun {
  delivered : Channels;
  world : World;
  config_subject : ReplaySubject
}.

Definition findPluginSpecs : Run :=
  (* extendConfig$ subscribes to config$ ... *)
  let (config, subject1) := config_shared unsubscribed in
  (* ... and then to pack$, whose source packageJson$ subscribes to
     config$ as well *)
  let (config', subject2) := config_shared subject1 in
  let packageJsons := packageJson_shared config' in
  let packs := pack_shared config' in
  let (extended, w) :=
    subscribe (extendConfig_shared SharedConfig packs |> map_ deliver)%rx
      (mkWorld config [])
  in
  mkRun (channels packageJsons packs extended) w subject2.

(** *** Vocabulary of the specification *)

(** Every module spec the packs of the run expose. *)
Definition collectedSpecs : list (PluginSpec Config) :=
  flat_map specsOf (pack_shared config_deferred).

(** The specs that pass the conflict detector, in the order in which their
    extensions settle. *)
Definition survivingSpecs : list (PluginSpec Config) :=
  match failOnConflicts collectedSpecs with
  | inl _ => []
  | inr allSpecs => settle extensionOrder allSpecs
  end.

(** The configuration once the specs of [specs] have extended it, one
    after the other. *)
Definition extendedBy (specs : list (PluginSpec Config)) (config : Config)
  : Config :=
  fold_left (fun c spec => fst (extendConfigService spec c settings))
    specs config.

(** The fully merged configuration: every surviving spec has extended
    it. *)
Definition mergedConfig : Config :=
  extendedBy survivingSpecs config_deferred.

(** The configuration once the specs of [specs] have been disabled, one
    after the other. *)
Definition disabledBy (specs : list (PluginSpec Config)) (config : Config)
  : Config :=
  fold_left (fun c spec => disableConfigExtension spec c) specs config.

End Run.

(** The classification as the specification computes it:
    [isRightVersion = spec.isVersionCompatible(configuration.get("pkg.version"))]
    and [enabled = isRightVersion && spec.isEnabled(configuration)]. *)
Definition isRightVersion (configuration : Config) (spec : PluginSpec Config)
  : bool :=
  isVersionCompatible spec (get_pkg_version configuration).

Definition enabled (configuration : Config) (spec : PluginSpec Config)
  : bool :=
  isRightVersion configuration spec && isEnabled spec configuration.

(** The calls that classify one spec. *)
Definition classifyEvents (configuration : Config) (spec : PluginSpec Config)
  : list Event :=
  mkEvent IsVersionCompatible spec configuration
    :: (if isRightVersion configuration spec
        then [mkEvent IsEnabled spec configuration]
        else []).

(** The calls that extend the configuration by [specs], from
    [configuration] on. *)
Fixpoint extendEvents (settings : Settings) (specs : list (PluginSpec Config))
  (configuration : Config) : list Event :=
  match specs with
  | [] => []
  | spec :: rest =>
      mkEvent ExtendConfigService spec configuration
        :: extendEvents settings rest
             (fst (extendConfigService spec configuration settings))
  end.

(** The calls that disable [specs], from [configuration] on. *)
Fixpoint disableEvents (specs : list (PluginSpec Config))
  (configuration : Config) : list Event :=
  match specs with
  | [] => []
  | spec :: rest =>
      mkEvent DisableConfigExtension spec configuration
        :: disableEvents rest (disableConfigExtension spec configuration)
  end.

(** What the extension pass returns for [specs], from [configuration]
    on. *)
Fixpoint extendAll (settings : Settings) (specs : list (PluginSpec Config))
  (configuration : Config) : list Extended :=
  match specs with
  | [] => []
  | spec :: rest =>
      mkExtended spec
        (map (mkDeprecation spec)
           (snd (extendConfigService spec configuration settings)))
        :: extendAll settings rest
             (fst (extendConfigService spec configuration settings))
  end.

(** The record the function given to [map] returns on [configuration]. *)
Definition classified (configuration : Config) (config : ConfigRef)
  (extended : Extended) : Result :=
  let spec := e_spec extended in
  mkResult config spec (e_deprecations extended)
    (if enabled configuration spec then [spec] else [])
    (if enabled configuration spec then [] else [spec])
    (if isRightVersion configuration spec then [] else [spec]).

(** What the subscribers of [extendConfig$] are handed for [results], from
    [configuration] on: each result once its disabled specs have been
    disabled. *)
Fixpoint deliveries (results : list Result) (configuration : Config)
  : list Delivery :=
  match results with
  | [] => []
  | r :: rest =>
      let configuration' :=
        fold_left (fun c spec => disableConfigExtension spec c)
          (disabledSpecs r) configuration in
      mkDelivery r (Config_items configuration')
        :: deliveries rest configuration'
  end.

(** What the conflict detector makes of a run: the ending of
    [extendConfig$]. *)
Definition verdict (settings : Settings) (configToMutate : option Config)
  : Ending :=
  match failOnConflicts (collectedSpecs settings configToMutate) with
  | inl thrown => Failed thrown
  | inr _ => Completed
  end.

(** What [extendConfig$] hands to its subscribers in a run. *)
Definition handed (settings : Settings) (configToMutate : option Config)
  : list Delivery :=
  deliveries
    (map (classified (mergedConfig settings configToMutate) SharedConfig)
       (extendAll settings (survivingSpecs settings configToMutate)
          (config_deferred settings configToMutate)))
    (mergedConfig settings configToMutate).

(** The specs that declare [id], in the order they are collected. *)
Definition specsWithId (id : string) (allSpecs : list (PluginSpec Config))
  : list (PluginSpec Config) :=
  filter (fun spec => String.eqb (getId spec) id) allSpecs.

(** A spec conflicts when another collected spec has its identifier. *)
Definition conflicting (allSpecs : list (PluginSpec Config))
  (spec : PluginSpec Config) : bool :=
  Nat.ltb 1 (length (specsWithId (getId spec) allSpecs)).

(** The conflict message as the specification words it: it names the
    identifier and the path of every conflicting spec. *)
Definition namesEveryConflictingSpec (allSpecs : list (PluginSpec Config))
  (thrown : string) : Prop :=
  forall spec,
    In spec allSpecs -> conflicting allSpecs spec = true ->
    Js.includes thrown (getId spec) = true
    /\ Js.includes thrown (getPath spec) = true.

(** The first identifier, in the order the specs are collected, that more
    than one spec declares. *)
Definition firstConflict (allSpecs : list (PluginSpec Config))
  : option string :=
  find (fun id => Nat.ltb 1 (length (specsWithId id allSpecs)))
    (map (@getId Config) allSpecs).

(** The strings of a list in the order of their first occurrence. *)
Definition uniq (l : list string) : list string :=
  fold_left
    (fun seen s => if existsb (String.eqb s) seen then seen else seen ++ [s])
    l [].

(** The groups of [groupSpecsById], one per identifier in the order of
    first occurrence.  That the function computes them is
    [groupSpecsById_groups] below. *)
Definition groups (allSpecs : list (PluginSpec Config))
  : JsMap.t (list (PluginSpec Config)) :=
  map (fun id => (id, specsWithId id allSpecs))
    (uniq (map (@getId Config) allSpecs)).



(** *** When [fs.realpathSync] throws

    [getDistinctKeyForFindResult] and [distinct] once more, with
    [fs.realpathSync] as a call that returns a path or throws.  A throw
    leaves the key selector, and [distinct] hands it to its subscriber as
    the error that ends the stream. *)
Definition getDistinctKeyForFindResult_throwing
  (fs_realpathSync : string -> Failure + string)
  (result : FindResult Error PackageJson) : Failure + DistinctKey :=
  match fr_error result with
  | Some error => inr (KeyString (message error))
  | None =>
      match fr_packageJson result with
      | Some packageJson =>
          match fs_realpathSync (directoryPath packageJson) with
          | inl thrown => inl thrown
          | inr path => inr (KeyString path)
          end
      | None => inr (KeyObject (fr_ref result))
      end
  end.

Fixpoint distinct_throwing_from (A : Type)
  (keySelector : A -> Failure + DistinctKey)
  (seen : list DistinctKey) (source : list A) : Stream A :=
  match source with
  | [] => mkStream [] Completed
  | a :: rest =>
      match keySelector a with
      | inl thrown => mkStream [] (Failed thrown)
      | inr key =>
          if existsb (DistinctKey_eqb key) seen
          then distinct_throwing_from keySelector seen rest
          else
            let passed :=
              distinct_throwing_from keySelector (key :: seen) rest in
            mkStream (a :: emitted passed) (ending passed)
      end
  end.

Definition distinct_throwing (A : Type)
  (keySelector : A -> Failure + DistinctKey) (source : list A) : Stream A :=
  distinct_throwing_from keySelector [] source.

(** [fs.realpathSync] returns, with the path the model works with, on
    every package.json that is asked for its key. *)
Definition returnsOn (fs_realpathSync : string -> Failure + string)
  (results : list (FindResult Error PackageJson)) : Prop :=
  forall r p,
    In r results -> fr_error r = None -> fr_packageJson r = Some p ->
    fs_realpathSync (directoryPath p) = inr (realpathSync (directoryPath p)).

(** The caller's [packageJson$], from the results as they arrive. *)
Definition packageJson_obs_throwing
  (fs_realpathSync : string -> Failure + string)
  (arrived : list (FindResult Error PackageJson)) : Stream PackageJson :=
  Recorded.mergeMap (fun r => arrayOf (fr_packageJson r))
    (distinct_throwing
       (getDistinctKeyForFindResult_throwing fs_realpathSync) arrived).

End FindPluginSpecs.

(* ================================================================== *)
(** ** A concrete installation

    Collaborators small enough to run the pipeline on: the configuration
    service holds the three keys and the identifiers of the plugins whose
    schema it carries; a package.json is its directory path. *)

Module Demo.

Record Service : Type := mkService {
  paths : list string;
  scanDirs : list string;
  version : string;
  schemas : list string
}.

(** The error module tags an error with one code. *)
Inductive ErrorCode : Type := InvalidDirectory | InvalidPack | Unknown.

Record Fault : Type := mkFault {
  code : ErrorCode;
  text : string
}.

Definition Spec : Type := PluginSpec Service.

Definition extendService (spec : Spec) (config : Service) (_ : unit)
  : Service * list string :=
  (mkService (paths config) (scanDirs config) (version config)
     (getId spec :: schemas config),
   if String.eqb (getId spec) "legacy" then ["legacy.port is deprecated"]
   else []).

Definition disableService (spec : Spec) (config : Service) : Service :=
  mkService (paths config) (scanDirs config) (version config)
    (List.filter (fun id => negb (String.eqb id (getId spec)))
       (schemas config)).

Definition invalidDirectory (error : option Fault) : bool :=
  match error with
  | Some (mkFault InvalidDirectory _) => true
  | _ => false
  end.

Definition invalidPack (error : option Fault) : bool :=
  match error with
  | Some (mkFault InvalidPack _) => true
  | _ => false
  end.

(** The configuration carries the schema of [spec]. *)
Definition contributed (spec : Spec) (config : Service) : bool :=
  existsb (String.eqb (getId spec)) (schemas config).

(** Plugin specs: [core] is always enabled, [addon] is enabled when the
    configuration carries the schema of [core], [legacy] asks for another
    version, [off] is disabled. *)
Definition core : Spec :=
  mkPluginSpec "core" "/plugins/core" (String.eqb "6.0.0") (fun _ => true).
Definition addon : Spec :=
  mkPluginSpec "addon" "/plugins/bundle/addon" (String.eqb "6.0.0")
    (fun config => existsb (String.eqb "core") (schemas config)).
Definition legacy : Spec :=
  mkPluginSpec "legacy" "/plugins/bundle/legacy" (String.eqb "5.0.0")
    (fun _ => true).
Definition off : Spec :=
  mkPluginSpec "off" "/plugins/bundle/off" (String.eqb "6.0.0")
    (fun _ => false).

(** Four specs that conflict in pairs. *)
Definition tagcloud : Spec :=
  mkPluginSpec "tagcloud" "/plugins/tagcloud" (String.eqb "6.0.0")
    (fun _ => true).
Definition tagcloud' : Spec :=
  mkPluginSpec "tagcloud" "/copies/tagcloud" (String.eqb "6.0.0")
    (fun _ => true).
Definition timelion : Spec :=
  mkPluginSpec "timelion" "/plugins/timelion" (String.eqb "6.0.0")
    (fun _ => true).
Definition timelion' : Spec :=
  mkPluginSpec "timelion" "/copies/timelion" (String.eqb "6.0.0")
    (fun _ => true).

Definition brokenPack : Fault := mkFault InvalidPack "no package.json".
Definition brokenDir : Fault := mkFault InvalidDirectory "no such directory".
Definition brokenDisk : Fault := mkFault Unknown "EIO".

Definition atPath (path : string)
  : list (FindResult Fault string) :=
  if String.eqb path "/missing" then [mkFindResult 0 (Some brokenPack) None]
  else [mkFindResult 1 None (Some path)].

Definition inDirectory (dir : string)
  : list (FindResult Fault string) :=
  if String.eqb dir "/plugins"
  then [mkFindResult 2 None (Some "/plugins/core");
        mkFindResult 3 None (Some "/plugins/bundle")]
  else [mkFindResult 4 (Some brokenDir) None].

Definition createPack (r : FindResult Fault string)
  : PackResult Service Fault :=
  match fr_error r, fr_packageJson r with
  | Some error, _ => mkPackResult (Some error) None
  | None, Some path =>
      if String.eqb path "/plugins/core"
      then mkPackResult None (Some (mkPack [core]))
      else if String.eqb path "/plugins/bundle"
      then mkPackResult None (Some (mkPack [addon; legacy; off]))
      else if String.eqb path "/vis/tagcloud"
      then mkPackResult None (Some (mkPack [tagcloud; tagcloud']))
      else if String.eqb path "/vis/timelion"
      then mkPackResult None (Some (mkPack [timelion; timelion']))
      else mkPackResult (Some brokenDisk) None
  | None, None => mkPackResult (Some brokenDisk) None
  end.

#[local] Instance collaborators : Collaborators := {|
  Settings := unit;
  Config := Service;
  Error := Fault;
  PackageJson := string;
  Item := nat;
  transformDeprecations := fun settings => settings;
  Config_withDefaultSchema := fun _ => mkService [] [] "6.0.0" [];
  get_plugins_paths := paths;
  get_plugins_scanDirs := scanDirs;
  get_pkg_version := version;
  Config_items := fun _ => None;
  Boolean := fun _ => true;
  message := text;
  directoryPath := fun path => path;
  realpathSync := fun path => path;
  createPackageJsonAtPath_obs := atPath;
  createPackageJsonsInDirectory_obs := inDirectory;
  createPack_obs := map createPack;
  extendConfigService := extendService;
  disableConfigExtension := disableService;
  isInvalidDirectoryError := invalidDirectory;
  isInvalidPackError := invalidPack
|}.

(** A caller's configuration service: one path and one scan directory
    that hold plugins (the path lies in the directory), and one of each
    that does not. *)
Definition installed : Service :=
  mkService ["/plugins/core"; "/missing"] ["/plugins"; "/nowhere"] "6.0.0" [].

(** Two packs whose specs conflict in pairs. *)
Definition clashing : Service :=
  mkService ["/vis/tagcloud"; "/vis/timelion"] [] "6.0.0" [].

(** Nothing configured. *)
Definition bare : Service := mkService [] [] "6.0.0" [].



(** A file system on which [/plugins/bundle] has vanished by the time it
    is canonicalized. *)
Definition vanished (path : string) : Failure + string :=
  if String.eqb path "/plugins/bundle" then inl (ThrownError "ENOENT")
  else inr path.

Definition run (discoveryOrder extensionOrder : Schedule) (config : Service)
  : Run :=
  findPluginSpecs discoveryOrder extensionOrder tt (Some config).

End Demo.

(* ================================================================== *)
(** ** The paginated selectable list (paginated_selectable_list.js)

    The controller of the [paginatedSelectableList] directive.  The values
    of the list are JavaScript values; [_.get] and the comparison lodash
    sorts with are taken from lodash. *)

From Stdlib Require Import Sorted.

Module PaginatedSelectableList.

Section Directive.

Variables Value Url Event Outcome : Type.

(** [_.get(val, prop)]. *)
Variable get : Value -> string -> Value.

(** lodash's [compareAscending]. *)
Variable compareAscending : Value -> Value -> comparison.

(** [function throwError(message)]. *)
Definition throwError (message : string) : Failure := ThrownError message.

(** Where [_.sortBy] puts [x] among values already in order: before the
    first value whose key is greater, so behind the values of equal key
    that came before it. *)
Fixpoint insertBy (key : Value -> Value) (x : Value) (sorted : list Value)
  : list Value :=
  match sorted with
  | [] => [x]
  | y :: rest =>
      match compareAscending (key x) (key y) with
      | Lt => x :: y :: rest
      | _ => y :: insertBy key x rest
      end
  end.

(** [_.sortBy(collection, iteratee)]: the stable sort in ascending order
    of the keys; an [undefined] iteratee is the identity. *)
Definition sortBy (collection : list Value)
  (iteratee : option (Value -> Value)) : list Value :=
  let key := match iteratee with Some f => f | None => fun v => v end in
  fold_left (fun sorted x => insertBy key x sorted) collection [].

(** The attributes the directive binds to its isolate scope. *)
Record Bindings : Type := mkBindings {
  b_perPage : option nat;
  b_list : list Value;
  b_listProperty : option string;
  b_userMakeUrl : option (Value -> Url);
  b_userOnSelect : option (Value -> Event -> Outcome);
  b_disableAutoFocus : bool
}.

(** The scope once the controller has run. *)
Record Scope : Type := mkScope {
  perPage : nat;
  list : Datatypes.list Value;
  listProperty : option string;
  userMakeUrl : option (Value -> Url);
  userOnSelect : option (Value -> Event -> Outcome);
  disableAutoFocus : bool;
  hits : Datatypes.list Value;
  hitCount : nat;
  isAscending : bool
}.

(** Truthiness of a bound function. *)
Definition given (A : Type) (f : option A) : bool :=
  match f with Some _ => true | None => false end.

(** [function ($scope)].  [$scope.accessor] is assigned by the last
    statement of the controller, so the [_.sortBy] of the controller gets
    [undefined] for its iteratee. *)
Definition controller (b : Bindings) : Failure + Scope :=
  if negb (given (b_userMakeUrl b)) && negb (given (b_userOnSelect b))
  then inl (throwError
    "paginatedSelectableList directive expects a makeUrl or onSelect function")
  else if given (b_userMakeUrl b) && given (b_userOnSelect b)
  then inl (throwError
    "paginatedSelectableList directive expects a makeUrl or onSelect attribute but not both")
  else
    let perPage :=
      match b_perPage b with
      | Some n => if Nat.eqb n 0 then 10 else n
      | None => 10
      end in
    let sorted := sortBy (b_list b) None in
    inr (mkScope perPage sorted (b_listProperty b) (b_userMakeUrl b)
           (b_userOnSelect b) (b_disableAutoFocus b)
           sorted (length sorted) true).

(** [$scope.accessor]: [prop ? _.get(val, prop) : val]; the empty string
    is falsy. *)
Definition accessor (scope : Scope) (val : Value) : Value :=
  match listProperty scope with
  | Some prop => if String.eqb prop "" then val else get val prop
  | None => val
  end.

(** [$scope.sortHits]. *)
Definition sortHits (scope : Scope) (hits : Datatypes.list Value) : Scope :=
  let sortedList := sortBy hits (Some (accessor scope)) in
  let ascending := negb (isAscending scope) in
  mkScope (perPage scope) (list scope) (listProperty scope)
    (userMakeUrl scope) (userOnSelect scope) (disableAutoFocus scope)
    (if ascending then sortedList else rev sortedList)
    (hitCount scope) ascending.

(** [$scope.makeUrl] and [$scope.onSelect]: calling a handler that was not
    bound is a [TypeError]. *)
Definition makeUrl (scope : Scope) (hit : Value) : Failure + Url :=
  match userMakeUrl scope with
  | Some f => inr (f hit)
  | None => inl TypeError
  end.

Definition onSelect (scope : Scope) (hit : Value) (event : Event)
  : Failure + Outcome :=
  match userOnSelect scope with
  | Some f => inr (f hit event)
  | None => inl TypeError
  end.

(** [a] does not come after [b] in ascending order of the keys. *)
Definition ascending (key : Value -> Value) (a b : Value) : Prop :=
  compareAscending (key a) (key b) <> Gt.

End Directive.

End PaginatedSelectableList.

(* ================================================================== *)
(** * Properties *)

(** ** The operators *)

Section RxFacts.

Variable W : Type.

Lemma foldM_ext (A R : Type) (f g : A -> R -> M W R) (l : list A) :
  (forall a r w, f a r w = g a r w) ->
  forall r w, foldM f l r w = foldM g l r w.
Proof.
  intros Hfg. induction l as [| a l IH]; intros r w; simpl.
  - reflexivity.
  - unfold bind. rewrite Hfg. destruct (g a r w) as [r' w']. apply IH.
Qed.

Lemma foldM_app (A R : Type) (f : A -> R -> M W R) (l1 l2 : list A) r w :
  foldM f (l1 ++ l2) r w = foldM f l2 (fst (foldM f l1 r w)) (snd (foldM f l1 r w)).
Proof.
  revert r w. induction l1 as [| a l1 IH]; intros r w; simpl.
  - reflexivity.
  - unfold bind. destruct (f a r w) as [r' w']. apply IH.
Qed.

(** The recording subscriber, fed through a task. *)
Lemma foldM_record (A B : Type) (task : A -> M W B)
  (f : A -> list B -> M W (list B)) (l : list A) :
  (forall a acc w, f a acc w = (b <- task a;; ret (acc ++ [b]))%rx w) ->
  forall acc w,
    foldM f l acc w = (acc ++ fst (mapM task l w), snd (mapM task l w)).
Proof.
  intros Hf. induction l as [| a l IH]; intros acc w; simpl.
  - unfold ret. simpl. now rewrite app_nil_r.
  - unfold bind, ret in *. rewrite Hf. destruct (task a w) as [b w1].
    rewrite IH. destruct (mapM task l w1) as [bs w2]. simpl.
    now rewrite <- app_assoc.
Qed.

Lemma mapM_ret (A : Type) (l : list A) w : mapM (@ret W A) l w = (l, w).
Proof.
  revert w. induction l as [| a l IH]; intros w; simpl.
  - reflexivity.
  - unfold bind, ret in *. now rewrite IH.
Qed.

Lemma mapM_ext (A B : Type) (f g : A -> M W B) (l : list A) :
  (forall a w, f a w = g a w) -> forall w, mapM f l w = mapM g l w.
Proof.
  intros Hfg. induction l as [| a l IH]; intros w; simpl.
  - reflexivity.
  - unfold bind. rewrite Hfg. destruct (g a w) as [b w1]. now rewrite IH.
Qed.

Lemma flatten_inr (A B : Type) (project : A -> list B) (l : list A) :
  Recorded.flatten (fun a => inr (project a)) l = (flat_map project l, None).
Proof.
  induction l as [| a l IH]; simpl; [reflexivity |]. now rewrite IH.
Qed.

Lemma mapM_app (A B : Type) (task : A -> M W B) (l1 l2 : list A) w :
  mapM task (l1 ++ l2) w
  = (fst (mapM task l1 w) ++ fst (mapM task l2 (snd (mapM task l1 w))),
     snd (mapM task l2 (snd (mapM task l1 w)))).
Proof.
  revert w. induction l1 as [| a l1 IH]; intros w; simpl.
  - unfold ret. simpl. now destruct (mapM task l2 w).
  - unfold bind, ret in *. destruct (task a w) as [b w1].
    rewrite IH. destruct (mapM task l1 w1) as [bs w2]. simpl.
    now destruct (mapM task l2 w2).
Qed.

Lemma from_Staged (A : Type) (l : list A) :
  Staged (from l) (ret (l, Completed)) (@ret W A).
Proof.
  intros R next r0 w. unfold from, bind, ret. simpl.
  reflexivity.
Qed.

Lemma map_Staged (A B C : Type) (source : Observable W B) prep
  (task : A -> M W B) (project : B -> M W C) :
  Staged source prep task ->
  Staged (map_ project source) prep (fun a => (b <- task a;; project b)%rx).
Proof.
  intros H R next r0 w. unfold map_. rewrite H. unfold bind.
  destruct (prep w) as [p w1].
  rewrite (foldM_ext _
    (fun a r => (c <- (b <- task a;; project b);; next c r)%rx)).
  - reflexivity.
  - intros a r w'. unfold bind. now destruct (task a w').
Qed.

Lemma do_Staged (A B : Type) (source : Observable W B) prep
  (task : A -> M W B) (effect : B -> M W unit) :
  Staged source prep task ->
  Staged (do_ effect source) prep
    (fun a => (b <- task a;; effect b;;; ret b)%rx).
Proof.
  intros H R next r0 w. unfold do_. rewrite H. unfold bind.
  destruct (prep w) as [p w1].
  rewrite (foldM_ext _
    (fun a r => (c <- (b <- task a;; effect b;;; ret b);; next c r)%rx)).
  - reflexivity.
  - intros a r w'. unfold bind, ret. destruct (task a w') as [b w2].
    now destruct (effect b w2).
Qed.

(** [toArray] runs every task before it hands anything on. *)
Lemma toArray_Staged (A B : Type) (source : Observable W B) prep
  (task : A -> M W B) :
  Staged source prep task ->
  Staged (toArray source)
    (p <- prep;;
     bs <- mapM task (fst p);;
     ret (match snd p with
          | Completed => ([bs], Completed)
          | Failed f => ([], Failed f)
          end))%rx
    (@ret W (list B)).
Proof.
  intros H R next r0 w. unfold toArray, bind. rewrite H.
  unfold bind, ret. destruct (prep w) as [[l e] w1]. simpl fst. simpl snd.
  rewrite (foldM_record task) by reflexivity.
  destruct (mapM task l w1) as [bs w2]. simpl.
  destruct e as [| f]; simpl.
  - unfold bind, ret. now destruct (next bs r0 w2).
  - reflexivity.
Qed.

(** The subscriber of [mergeMap] keeps the error it has been sent. *)
Lemma foldM_stopped (A B R : Type) (project : A -> M W (Failure + list B))
  (next : B -> R -> M W R) (l : list A) r f w :
  foldM (mergeMap_next project next) l (r, Some f) w = ((r, Some f), w).
Proof.
  revert w. induction l as [| a l IH]; intros w; simpl.
  - reflexivity.
  - unfold bind. unfold mergeMap_next at 1. simpl. apply IH.
Qed.

(** The subscriber of [mergeMap] after an array of values, for a
    [project] without side effects. *)
Lemma foldM_mergeMap (A B R : Type) (project : A -> Failure + list B)
  (next : B -> R -> M W R) (l : list A) :
  forall r w,
    foldM (mergeMap_next (fun a => ret (project a)) next) l (r, None) w
    = ((fst (foldM next (fst (Recorded.flatten project l)) r w),
        snd (Recorded.flatten project l)),
       snd (foldM next (fst (Recorded.flatten project l)) r w)).
Proof.
  induction l as [| a l IH]; intros r w; simpl.
  - reflexivity.
  - unfold bind at 1. unfold mergeMap_next at 1. simpl.
    unfold bind at 1. unfold ret at 1.
    destruct (project a) as [f | array].
    + unfold ret. simpl. apply foldM_stopped.
    + unfold bind, ret. simpl. rewrite foldM_app.
      destruct (foldM next array r w) as [r1 w1]. simpl. now rewrite IH.
Qed.

(** [mergeMap] over a source that holds its values ready. *)
Lemma mergeMap_Staged (A B : Type) (source : Observable W A)
  (prep : M W (list A * Ending)) (project : A -> Failure + list B) :
  Staged source prep (@ret W A) ->
  Staged (mergeMap (fun a => ret (project a)) source)
    (p <- prep;;
     ret (fst (Recorded.flatten project (fst p)),
          match snd (Recorded.flatten project (fst p)) with
          | Some f => Failed f
          | None => snd p
          end))%rx
    (@ret W B).
Proof.
  intros H R next r0 w. unfold mergeMap, bind. rewrite H.
  unfold bind, ret. destruct (prep w) as [[l e] w1]. simpl fst. simpl snd.
  rewrite (foldM_ext _ (mergeMap_next (fun a => ret (project a)) next)).
  - rewrite foldM_mergeMap.
    destruct (Recorded.flatten project l) as [bs stopped]. simpl.
    change (foldM (fun a r w0 => next a r w0) bs r0 w1)
      with (foldM next bs r0 w1).
    now destruct (foldM next bs r0 w1).
  - intros a [r stopped] w'. unfold mergeMap_next. simpl.
    destruct stopped; reflexivity.
Qed.

(** [mergeMap(async ...)] over a source that holds its values ready. *)
Lemma mergeMapAsync_Staged (A B : Type) (source : Observable W A)
  (prep : M W (list A * Ending)) (sched : Schedule) (task : A -> M W B) :
  Staged source prep (@ret W A) ->
  Staged (mergeMapAsync sched task source)
    (p <- prep;;
     match snd p with
     | Completed => ret (settle sched (fst p), Completed)
     | Failed f => (mapM task (settle sched (fst p));;; ret ([], Failed f))
     end)%rx
    task.
Proof.
  intros H R next r0 w. unfold mergeMapAsync, bind. rewrite H.
  unfold bind, ret. destruct (prep w) as [[l e] w1]. simpl fst. simpl snd.
  rewrite (foldM_record (@ret W A)) by reflexivity.
  rewrite mapM_ret. simpl. destruct e as [| f]; simpl.
  - reflexivity.
  - now destruct (mapM task (settle sched l) w1).
Qed.

(** What the recording subscriber gets from a staged source. *)
Lemma subscribe_Staged (A B : Type) (source : Observable W B)
  (prep : M W (list A * Ending)) (task : A -> M W B) w :
  Staged source prep task ->
  subscribe source w
  = (p <- prep;; bs <- mapM task (fst p);; ret (mkStream bs (snd p)))%rx w.
Proof.
  intros H. unfold subscribe, bind. rewrite H. unfold bind, ret.
  destruct (prep w) as [[l e] w1]. simpl fst. simpl snd.
  rewrite (foldM_record task) by reflexivity.
  now destruct (mapM task l w1).
Qed.

End RxFacts.

(** ** Arrival orders *)

Section ScheduleFacts.

Variable A : Type.

Lemma take_from_None (k : nat) (sources : list (list A)) :
  take_from k sources = None -> concat sources = [].
Proof.
  revert k. induction sources as [| [| x xs] rest IH]; intros k; simpl.
  - reflexivity.
  - apply IH.
  - destruct k as [| k']; [discriminate |].
    destruct (take_from k' rest) as [[y rest'] |]; discriminate.
Qed.

Lemma take_from_Some (k : nat) (sources rest : list (list A)) (x : A) :
  take_from k sources = Some (x, rest) ->
  Permutation (concat sources) (x :: concat rest).
Proof.
  revert k rest. induction sources as [| [| y ys] more IH]; intros k rest; simpl.
  - discriminate.
  - apply IH.
  - destruct k as [| k'].
    + intros E. inversion E; subst. reflexivity.
    + destruct (take_from k' more) as [[z more'] |] eqn:E'; intros E;
        inversion E; subst; simpl.
      * apply IH in E'.
        transitivity ((y :: ys) ++ x :: concat more').
        -- now apply (Permutation_app_head (y :: ys)).
        -- symmetry. apply (Permutation_middle (y :: ys)).
      * reflexivity.
Qed.

Lemma interleave_Permutation (fuel : nat) :
  forall (sched : Schedule) (sources : list (list A)),
    length (concat sources) = fuel ->
    Permutation (interleave fuel sched sources) (concat sources).
Proof.
  induction fuel as [| fuel IH]; intros sched sources Hlen; simpl.
  - apply length_zero_iff_nil in Hlen. now rewrite Hlen.
  - destruct (take_from (hd 0 sched) sources) as [[x rest] |] eqn:E.
    + apply take_from_Some in E. rewrite E. constructor. apply IH.
      apply Permutation_length in E. simpl in E. lia.
    + apply take_from_None in E. rewrite E in Hlen. discriminate.
Qed.

(** [merge] delivers every value of every source, once. *)
Lemma merge_Permutation (sched : Schedule) (sources : list (list A)) :
  Permutation (merge sched sources) (concat sources).
Proof. now apply interleave_Permutation. Qed.

(** Every promise settles, once. *)
Lemma settle_Permutation (sched : Schedule) (pending : list A) :
  Permutation (settle sched pending) pending.
Proof.
  unfold settle. rewrite merge_Permutation.
  induction pending as [| a l IH]; simpl; [reflexivity | now rewrite IH].
Qed.

Lemma merge_nil (sched : Schedule) : merge sched (@nil (list A)) = [].
Proof. reflexivity. Qed.

Lemma settle_nil (sched : Schedule) : settle sched (@nil A) = [].
Proof. reflexivity. Qed.

End ScheduleFacts.

(** ** Strings *)

Section StringFacts.

Lemma startsWith_empty (s : string) : Js.startsWith s "" = true.
Proof. now destruct s. Qed.

Lemma startsWith_app (sub post : string) :
  Js.startsWith (sub ++ post) sub = true.
Proof.
  induction sub as [| c sub IH]; simpl.
  - apply startsWith_empty.
  - now rewrite Ascii.eqb_refl, IH.
Qed.

Lemma includes_startsWith (s sub : string) :
  Js.startsWith s sub = true -> Js.includes s sub = true.
Proof. intros H. destruct s; simpl in *; now rewrite H. Qed.

Lemma includes_app_r (pre s sub : string) :
  Js.includes s sub = true -> Js.includes (pre ++ s) sub = true.
Proof.
  intros H. induction pre as [| c pre IH]; simpl.
  - exact H.
  - rewrite IH. apply orb_true_r.
Qed.

Lemma includes_app_l (s post sub : string) :
  Js.includes s sub = true -> Js.includes (s ++ post) sub = true.
Proof.
  revert sub. induction s as [| c s IH]; intros sub; simpl.
  - rewrite orb_false_r. destruct sub; [| discriminate].
    intros _. apply includes_startsWith, startsWith_empty.
  - intros H. apply orb_true_iff in H. destruct H as [H | H].
    + apply orb_true_iff. left.
      destruct sub as [| d sub]; [reflexivity |].
      apply andb_true_iff in H. destruct H as [Hc Hs].
      rewrite Hc. simpl.
      clear IH Hc. revert sub Hs. induction s as [| e s IH']; intros sub Hs.
      * destruct sub; [| discriminate]. apply startsWith_empty.
      * destruct sub as [| f sub]; [reflexivity |]. simpl in *.
        apply andb_true_iff in Hs. destruct Hs as [He Hs].
        rewrite He. simpl. now apply IH'.
    + rewrite (IH _ H). apply orb_true_r.
Qed.

Lemma includes_middle (pre s post : string) :
  Js.includes (pre ++ s ++ post) s = true.
Proof.
  apply includes_app_r, includes_startsWith, startsWith_app.
Qed.

Lemma includes_end (pre s : string) : Js.includes (pre ++ s) s = true.
Proof.
  apply includes_app_r, includes_startsWith.
  induction s as [| c s IH]; simpl; [reflexivity |].
  now rewrite Ascii.eqb_refl, IH.
Qed.

(** A joined string includes whatever one of its parts includes. *)
Lemma includes_join (sep : string) (parts : list string) (p sub : string) :
  In p parts -> Js.includes p sub = true ->
  Js.includes (Js.join sep parts) sub = true.
Proof.
  intros Hin Hsub. induction parts as [| q parts IH]; [contradiction |].
  destruct Hin as [-> | Hin].
  - destruct parts as [| q' parts]; simpl; [exact Hsub |].
    now apply includes_app_l.
  - destruct parts as [| q' parts]; [contradiction |].
    change (Js.join sep (q :: q' :: parts))
      with (q ++ sep ++ Js.join sep (q' :: parts))%string.
    apply includes_app_r, includes_app_r. now apply IH.
Qed.

End StringFacts.

(** ** Grouping by identifier and the conflict check *)

Section MapFacts.

Variable V : Type.
Variable f : string -> V.

Lemma get_map (keys : list string) (key : string) :
  JsMap.get (map (fun k => (k, f k)) keys) key
  = if existsb (String.eqb key) keys then Some (f key) else None.
Proof.
  induction keys as [| k keys IH]; simpl; [reflexivity |].
  destruct (String.eqb key k) eqn:E; simpl.
  - apply String.eqb_eq in E. now subst.
  - exact IH.
Qed.

Lemma set_map_absent (keys : list string) (key : string) (v : V) :
  existsb (String.eqb key) keys = false ->
  JsMap.set (map (fun k => (k, f k)) keys) key v
  = map (fun k => (k, f k)) keys ++ [(key, v)].
Proof.
  induction keys as [| k keys IH]; simpl; [reflexivity |].
  intros H. apply orb_false_iff in H. destruct H as [E H].
  rewrite E. now rewrite IH.
Qed.

Lemma set_map_present (keys : list string) (key : string) (v : V) :
  NoDup keys -> existsb (String.eqb key) keys = true ->
  JsMap.set (map (fun k => (k, f k)) keys) key v
  = map (fun k => (k, if String.eqb k key then v else f k)) keys.
Proof.
  induction keys as [| k keys IH]; simpl; [discriminate |].
  intros Hnd H. inversion Hnd as [| ? ? Hk Hnd']; subst.
  destruct (String.eqb key k) eqn:E.
  - apply String.eqb_eq in E. subst k. rewrite String.eqb_refl. f_equal.
    apply map_ext_in. intros k Hin.
    destruct (String.eqb k key) eqn:E'; [| reflexivity].
    apply String.eqb_eq in E'. now subst.
  - rewrite String.eqb_sym, E. f_equal. now apply IH.
Qed.

End MapFacts.

Section UniqFacts.

Lemma uniq_snoc (l : list string) (s : string) :
  uniq (l ++ [s])
  = if existsb (String.eqb s) (uniq l) then uniq l else uniq l ++ [s].
Proof. unfold uniq. now rewrite fold_left_app. Qed.

Lemma existsb_snoc (A : Type) (p : A -> bool) (l : list A) (a : A) :
  existsb p (l ++ [a]) = existsb p l || p a.
Proof. rewrite existsb_app. simpl. now rewrite orb_false_r. Qed.

Lemma uniq_existsb (l : list string) (s : string) :
  existsb (String.eqb s) (uniq l) = existsb (String.eqb s) l.
Proof.
  induction l as [| x l IH] using rev_ind; [reflexivity |].
  rewrite uniq_snoc, existsb_snoc.
  destruct (existsb (String.eqb x) (uniq l)) eqn:E.
  - rewrite IH. destruct (String.eqb s x) eqn:Es.
    + apply String.eqb_eq in Es. subst. rewrite <- IH, E. reflexivity.
    + now rewrite orb_false_r.
  - now rewrite existsb_snoc, IH.
Qed.

Lemma existsb_eqb_In (l : list string) (s : string) :
  existsb (String.eqb s) l = true <-> In s l.
Proof.
  rewrite existsb_exists. split.
  - intros [x [Hin E]]. apply String.eqb_eq in E. now subst.
  - intros Hin. exists s. split; [exact Hin | apply String.eqb_refl].
Qed.

Lemma uniq_NoDup (l : list string) : NoDup (uniq l).
Proof.
  induction l as [| x l IH] using rev_ind; [constructor |].
  rewrite uniq_snoc. destruct (existsb (String.eqb x) (uniq l)) eqn:E.
  - exact IH.
  - apply NoDup_app; [exact IH | repeat constructor; intros [] |].
    intros y Hy [<- | []].
    apply existsb_eqb_In in Hy. congruence.
Qed.

Lemma find_snoc (A : Type) (p : A -> bool) (l : list A) (a : A) :
  find p (l ++ [a])
  = match find p l with
    | Some b => Some b
    | None => if p a then Some a else None
    end.
Proof.
  induction l as [| b l IH]; simpl; [reflexivity |].
  now destruct (p b).
Qed.

(** The first string with a property is the same in a list and among its
    first occurrences. *)
Lemma find_uniq (p : string -> bool) (l : list string) :
  find p (uniq l) = find p l.
Proof.
  induction l as [| x l IH] using rev_ind; [reflexivity |].
  rewrite uniq_snoc, find_snoc.
  destruct (existsb (String.eqb x) (uniq l)) eqn:E.
  - rewrite IH. destruct (find p l) eqn:F; [reflexivity |].
    rewrite uniq_existsb in E. apply existsb_eqb_In in E.
    now rewrite (find_none _ _ F _ E).
  - now rewrite find_snoc, IH.
Qed.

End UniqFacts.

Section GroupFacts.

Context {collaborators : Collaborators}.

Implicit Types (spec : PluginSpec Config) (allSpecs : list (PluginSpec Config)).

Lemma specsWithId_snoc (id : string) allSpecs spec :
  specsWithId id (allSpecs ++ [spec])
  = specsWithId id allSpecs
      ++ (if String.eqb (getId spec) id then [spec] else []).
Proof. unfold specsWithId. now rewrite filter_app. Qed.

Lemma specsWithId_absent (id : string) allSpecs :
  existsb (String.eqb id) (map (@getId Config) allSpecs) = false ->
  specsWithId id allSpecs = [].
Proof.
  induction allSpecs as [| spec l IH]; simpl; [reflexivity |].
  intros H. apply orb_false_iff in H. destruct H as [E H].
  rewrite String.eqb_sym, E. now apply IH.
Qed.

(** [groupSpecsById] keeps one group per identifier, in the order of first
    occurrence, each with the specs that declare it in their order. *)
Lemma groupSpecsById_groups allSpecs :
  groupSpecsById allSpecs = groups allSpecs.
Proof.
  induction allSpecs as [| spec l IH] using rev_ind; [reflexivity |].
  unfold groupSpecsById in *. rewrite fold_left_app. simpl. rewrite IH.
  unfold groups. rewrite map_app. simpl. rewrite uniq_snoc, get_map.
  destruct (existsb (String.eqb (getId spec)) (uniq (map (@getId Config) l)))
    eqn:E.
  - rewrite set_map_present by (auto using uniq_NoDup).
    apply map_ext. intros id. rewrite specsWithId_snoc.
    rewrite (String.eqb_sym (getId spec) id).
    destruct (String.eqb id (getId spec)) eqn:Eid.
    + apply String.eqb_eq in Eid. now subst.
    + now rewrite app_nil_r.
  - rewrite set_map_absent by exact E. rewrite map_app. simpl.
    rewrite specsWithId_snoc, String.eqb_refl.
    rewrite uniq_existsb in E. rewrite (specsWithId_absent _ _ E). simpl.
    f_equal. apply map_ext_in. intros id Hin.
    rewrite specsWithId_snoc.
    destruct (String.eqb (getId spec) id) eqn:Eid; [| now rewrite app_nil_r].
    apply String.eqb_eq in Eid. subst id.
    apply existsb_eqb_In in Hin. rewrite uniq_existsb in Hin. congruence.
Qed.

Lemma throwOnConflict_map (g : string -> list (PluginSpec Config))
  (keys : list string) :
  throwOnConflict (map (fun id => (id, g id)) keys)
  = match find (fun id => Nat.ltb 1 (length (g id))) keys with
    | Some id => Some (ThrownError (conflictMessage id (g id)))
    | None => None
    end.
Proof.
  induction keys as [| id keys IH]; simpl; [reflexivity |].
  now destruct (Nat.ltb 1 (length (g id))).
Qed.

(** The conflict check throws for the first identifier that more than one
    spec declares, with the specs that declare it. *)
Lemma failOnConflicts_firstConflict allSpecs :
  failOnConflicts allSpecs
  = match firstConflict allSpecs with
    | Some id =>
        inl (ThrownError (conflictMessage id (specsWithId id allSpecs)))
    | None => inr allSpecs
    end.
Proof.
  unfold failOnConflicts, firstConflict.
  rewrite groupSpecsById_groups. unfold groups.
  rewrite throwOnConflict_map, find_uniq.
  now destruct (find _ (map (@getId Config) allSpecs)).
Qed.

Lemma specsWithId_count (id : string) allSpecs :
  length (specsWithId id allSpecs)
  = count_occ string_dec (map (@getId Config) allSpecs) id.
Proof.
  induction allSpecs as [| spec l IH]; simpl; [reflexivity |].
  destruct (string_dec (getId spec) id) as [-> | Hne].
  - rewrite String.eqb_refl. simpl. now rewrite IH.
  - apply String.eqb_neq in Hne. now rewrite Hne.
Qed.

(** No conflict is found exactly when the identifiers are pairwise
    distinct. *)
Lemma firstConflict_None allSpecs :
  firstConflict allSpecs = None <-> NoDup (map (@getId Config) allSpecs).
Proof.
  unfold firstConflict. rewrite (NoDup_count_occ string_dec). split.
  - intros H id. 
    destruct (in_dec string_dec id (map (@getId Config) allSpecs)) as [Hin | Hout].
    + pose proof (find_none _ _ H id Hin) as Hid. simpl in Hid.
      apply Nat.ltb_ge in Hid. now rewrite <- specsWithId_count.
    + apply (count_occ_not_In string_dec) in Hout. lia.
  - intros H. destruct (find _ _) as [id |] eqn:F; [| reflexivity].
    apply find_some in F. destruct F as [_ F]. apply Nat.ltb_lt in F.
    rewrite specsWithId_count in F. specialize (H id). lia.
Qed.

Lemma firstConflict_Some allSpecs (id : string) :
  firstConflict allSpecs = Some id ->
  1 < length (specsWithId id allSpecs).
Proof.
  unfold firstConflict. intros F. apply find_some in F.
  now apply Nat.ltb_lt.
Qed.

(** Two collected specs with one identifier make the check throw. *)
Lemma firstConflict_shared l1 l2 l3 spec1 spec2 :
  getId spec1 = getId spec2 ->
  firstConflict (l1 ++ spec1 :: l2 ++ spec2 :: l3) <> None.
Proof.
  intros Hid H. apply firstConflict_None in H.
  rewrite map_app in H. simpl in H. rewrite map_app in H. simpl in H.
  apply NoDup_remove_2 in H. apply H.
  rewrite Hid. apply in_or_app. right. apply in_or_app. right. now left.
Qed.

(** The message names the identifier, and the path of every spec that
    declares it. *)
Lemma conflictMessage_names (id : string) allSpecs spec :
  In spec allSpecs ->
  Js.includes (conflictMessage id allSpecs) id = true
  /\ Js.includes (conflictMessage id allSpecs) (getPath spec) = true.
Proof.
  intros Hin. unfold conflictMessage. split.
  - apply includes_app_r, includes_app_r, includes_startsWith, startsWith_app.
  - do 6 apply includes_app_r.
    apply includes_join
      with (p := ("  - " ++ id ++ " at " ++ getPath spec)%string).
    + apply (in_map (fun s => ("  - " ++ id ++ " at " ++ getPath s)%string)).
      exact Hin.
    + apply includes_app_r, includes_app_r, includes_end.
Qed.

End GroupFacts.

(** ** The pipeline as three passes *)

Section PipelineFacts.

Context {collaborators : Collaborators}.

Variable discoveryOrder extensionOrder : Schedule.
Variable settings : Settings.
Variable configToMutate : option Config.

Implicit Types (spec : PluginSpec Config) (w : World).

(** The two buffering barriers make [extendConfig$] extend with every
    spec, then classify every spec, then disable and deliver result by
    result. *)
Lemma extendConfig_shared_passes (config : ConfigRef)
  (packs : list (PackResult Config Error)) w :
  subscribe
    (extendConfig_shared extensionOrder settings config packs
       |> map_ (@deliver collaborators))%rx w
  = passes extensionOrder settings config packs w.
Proof.
  pose proof (from_Staged (W := World) packs) as H0.
  pose proof (mergeMap_Staged (fun r => inr (specsOf r)) H0) as H1.
  pose proof (toArray_Staged H1) as H2.
  pose proof (mergeMap_Staged failOnConflicts H2) as H3.
  pose proof (mergeMapAsync_Staged extensionOrder (extend settings) H3) as H4.
  pose proof (toArray_Staged H4) as H5a.
  pose proof (mergeMap_Staged (fun array => inr array) H5a) as H5.
  pose proof (map_Staged (classify config) H5) as H6.
  pose proof (toArray_Staged H6) as H7a.
  pose proof (mergeMap_Staged (fun array => inr array) H7a) as H7.
  pose proof (do_Staged disable H7) as H8.
  pose proof (map_Staged (@deliver collaborators) H8) as H9.
  unfold extendConfig_shared, bufferAllResults.
  rewrite (subscribe_Staged w H9).
  clear. unfold passes, bind, ret. simpl.
  rewrite flatten_inr. simpl. rewrite mapM_ret. simpl.
  destruct (failOnConflicts (flat_map specsOf packs)) as [thrown | allSpecs];
    simpl.
  - reflexivity.
  - rewrite app_nil_r.
    destruct (mapM (extend settings) (settle extensionOrder allSpecs) w)
      as [extended w1]. simpl. rewrite app_nil_r.
    change (mapM (fun a0 w0 => classify config a0 w0) extended w1)
      with (mapM (classify config) extended w1).
    destruct (mapM (classify config) extended w1) as [results w2].
    simpl. rewrite app_nil_r.
    rewrite (mapM_ext _ (fun r => disable r;;; deliver r)%rx).
    + reflexivity.
    + intros r w'. unfold bind. now destruct (disable r w').
Qed.


Lemma extend_run (spec : PluginSpec Config) w :
  extend settings spec w
  = (mkExtended spec
       (map (mkDeprecation spec)
          (snd (extendConfigService spec (shared w) settings))),
     mkWorld (fst (extendConfigService spec (shared w) settings))
       (log w ++ [mkEvent ExtendConfigService spec (shared w)])).
Proof. reflexivity. Qed.

(** The extension pass. *)
Lemma extend_pass (specs : list (PluginSpec Config)) :
  forall w,
    mapM (extend settings) specs w
    = (extendAll settings specs (shared w),
       mkWorld (extendedBy settings specs (shared w))
         (log w ++ extendEvents settings specs (shared w))).
Proof.
  induction specs as [| spec rest IH]; intros w; simpl.
  - unfold ret, extendedBy. simpl. rewrite app_nil_r. now destruct w.
  - unfold bind. rewrite extend_run, IH. unfold ret. simpl.
    now rewrite <- app_assoc.
Qed.

Lemma extendAll_specs (specs : list (PluginSpec Config)) :
  forall configuration,
    map e_spec (extendAll settings specs configuration) = specs.
Proof.
  induction specs as [| spec rest IH]; intros c; simpl; [reflexivity |].
  now rewrite IH.
Qed.

Lemma classify_run (config : ConfigRef) (extended : Extended) w :
  classify config extended w
  = (classified (shared w) config extended,
     mkWorld (shared w)
       (log w ++ classifyEvents (shared w) (e_spec extended))).
Proof.
  unfold classify, classified, classifyEvents, enabled, isRightVersion.
  unfold bind, ret, deref, gets, call, modify. simpl.
  destruct (isVersionCompatible (e_spec extended) (get_pkg_version (shared w)));
    simpl.
  - now rewrite <- app_assoc.
  - reflexivity.
Qed.

(** The classification pass: it leaves the configuration as it finds
    it. *)
Lemma classify_pass (config : ConfigRef) (extended : list Extended) :
  forall w,
    mapM (classify config) extended w
    = (map (classified (shared w) config) extended,
       mkWorld (shared w)
         (log w
            ++ flat_map (classifyEvents (shared w)) (map e_spec extended))).
Proof.
  induction extended as [| e rest IH]; intros w; simpl.
  - unfold ret. rewrite app_nil_r. now destruct w.
  - unfold bind. rewrite classify_run, IH. unfold ret. simpl.
    now rewrite <- !app_assoc.
Qed.

Lemma disableEvents_app (l1 l2 : list (PluginSpec Config)) :
  forall configuration,
    disableEvents (l1 ++ l2) configuration
    = disableEvents l1 configuration
        ++ disableEvents l2 (disabledBy l1 configuration).
Proof.
  induction l1 as [| spec l1 IH]; intros c; simpl; [reflexivity |].
  now rewrite IH.
Qed.

Lemma disable_specs (specs : list (PluginSpec Config)) :
  forall w,
    foldM (fun spec (_ : unit) =>
             (call DisableConfigExtension spec;;;
              modify (fun w =>
                mkWorld (disableConfigExtension spec (shared w)) (log w)))%rx)
          specs tt w
    = (tt, mkWorld (disabledBy specs (shared w))
             (log w ++ disableEvents specs (shared w))).
Proof.
  induction specs as [| spec rest IH]; intros w; simpl.
  - unfold ret. rewrite app_nil_r. now destruct w.
  - unfold bind at 1. unfold bind at 1. unfold call, modify at 1 2.
    rewrite IH. simpl. now rewrite <- app_assoc.
Qed.

Lemma disable_run (r : Result) w :
  disable r w
  = (tt, mkWorld (disabledBy (disabledSpecs r) (shared w))
           (log w ++ disableEvents (disabledSpecs r) (shared w))).
Proof. apply disable_specs. Qed.

(** The last pass: disable, then deliver, result by result. *)
Lemma disable_pass (results : list Result) :
  forall w,
    mapM (fun r => disable r;;; deliver r)%rx results w
    = (deliveries results (shared w),
       mkWorld (disabledBy (flat_map disabledSpecs results) (shared w))
         (log w
            ++ disableEvents (flat_map disabledSpecs results) (shared w))).
Proof.
  induction results as [| r rest IH]; intros w; simpl.
  - unfold ret. rewrite app_nil_r. now destruct w.
  - unfold bind at 1. unfold bind at 1. rewrite disable_run.
    unfold deliver, deref, gets, bind, ret. simpl. rewrite IH. simpl.
    unfold disabledBy. rewrite fold_left_app, disableEvents_app.
    now rewrite <- app_assoc.
Qed.

Lemma deliveries_results (results : list Result) :
  forall configuration,
    map result (deliveries results configuration) = results.
Proof.
  induction results as [| r rest IH]; intros c; simpl; [reflexivity |].
  now rewrite IH.
Qed.

(** *** One run *)

Lemma flat_map_classified (A : Type) (f : Result -> list A)
  (extended : list Extended) (configuration : Config) (config : ConfigRef) :
  (forall e, f (classified configuration config e)
             = f (classified configuration config
                    (mkExtended (e_spec e) []))) ->
  flat_map f (map (classified configuration config) extended)
  = flat_map
      (fun spec => f (classified configuration config (mkExtended spec [])))
      (map e_spec extended).
Proof.
  intros Hf. induction extended as [| e rest IH]; simpl; [reflexivity |].
  now rewrite IH, Hf.
Qed.

Lemma flat_map_filter (A : Type) (p : A -> bool) (l : list A) :
  flat_map (fun a => if p a then [a] else []) l = filter p l.
Proof.
  induction l as [| a l IH]; simpl; [reflexivity |].
  rewrite IH. now destruct (p a).
Qed.

Lemma flat_map_negb_filter (A : Type) (p : A -> bool) (l : list A) :
  flat_map (fun a => if p a then [] else [a]) l
  = filter (fun a => negb (p a)) l.
Proof.
  induction l as [| a l IH]; simpl; [reflexivity |].
  rewrite IH. now destruct (p a).
Qed.

Lemma enabledSpecs_classified (configuration : Config) (config : ConfigRef)
  (extended : list Extended) :
  flat_map enabledSpecs (map (classified configuration config) extended)
  = filter (enabled configuration) (map e_spec extended).
Proof.
  rewrite flat_map_classified by reflexivity. apply flat_map_filter.
Qed.

Lemma disabledSpecs_classified (configuration : Config) (config : ConfigRef)
  (extended : list Extended) :
  flat_map disabledSpecs (map (classified configuration config) extended)
  = filter (fun spec => negb (enabled configuration spec))
      (map e_spec extended).
Proof.
  rewrite flat_map_classified by reflexivity. apply flat_map_negb_filter.
Qed.

Lemma invalidVersionSpecs_classified (configuration : Config)
  (config : ConfigRef) (extended : list Extended) :
  flat_map invalidVersionSpecs
    (map (classified configuration config) extended)
  = filter (fun spec => negb (isRightVersion configuration spec))
      (map e_spec extended).
Proof.
  rewrite flat_map_classified by reflexivity. apply flat_map_negb_filter.
Qed.

Lemma flat_map_deliveries (A : Type) (f : Result -> list A)
  (results : list Result) (configuration : Config) :
  flat_map (fun d => f (result d)) (deliveries results configuration)
  = flat_map f results.
Proof.
  rewrite <- (deliveries_results results configuration) at 2.
  now rewrite flat_map_concat_map, flat_map_concat_map, map_map.
Qed.

Local Notation "'run'" :=
  (findPluginSpecs discoveryOrder extensionOrder settings configToMutate).
Local Notation "'start'" := (config_deferred settings configToMutate).
Local Notation "'survivors'" :=
  (survivingSpecs discoveryOrder extensionOrder settings configToMutate).
Local Notation "'merged'" :=
  (mergedConfig discoveryOrder extensionOrder settings configToMutate).
Local Notation "'disabled'" :=
  (filter (fun spec => negb (enabled merged spec)) survivors).

Lemma passes_run :
  passes extensionOrder settings SharedConfig
    (pack_shared discoveryOrder start) (mkWorld start [])
  = (mkStream (handed discoveryOrder extensionOrder settings configToMutate)
     (verdict discoveryOrder settings configToMutate),
     mkWorld (disabledBy disabled merged)
       (extendEvents settings survivors start
          ++ flat_map (classifyEvents merged) survivors
          ++ disableEvents disabled merged)).
Proof.
  unfold passes, handed, verdict, mergedConfig, survivingSpecs, collectedSpecs.
  destruct (failOnConflicts
              (flat_map specsOf (pack_shared discoveryOrder start)))
    as [thrown | allSpecs]; simpl.
  - reflexivity.
  - unfold bind, ret. rewrite extend_pass. simpl.
    rewrite classify_pass. simpl. rewrite disable_pass. simpl.
    rewrite disabledSpecs_classified, extendAll_specs.
    now rewrite <- app_assoc.
Qed.

Lemma findPluginSpecs_run :
  run
  = mkRun
      (channels (packageJson_shared discoveryOrder start)
         (pack_shared discoveryOrder start) (mkStream (handed discoveryOrder extensionOrder settings configToMutate)
     (verdict discoveryOrder settings configToMutate)))
      (mkWorld (disabledBy disabled merged)
         (extendEvents settings survivors start
            ++ flat_map (classifyEvents merged) survivors
            ++ disableEvents disabled merged))
      (mkReplaySubject (Some start) 1).
Proof.
  unfold findPluginSpecs. simpl.
  rewrite extendConfig_shared_passes, passes_run. reflexivity.
Qed.

(** *** The channels of [extendConfig$] *)

(** A channel of [extendConfig$] in a run, as a projection [f] of the
    classified results. *)
Ltac channel_of_run f :=
  rewrite findPluginSpecs_run;
  unfold channels, Recorded.mergeMap, handed; simpl;
  rewrite (flat_map_deliveries f).

Lemma spec_obs_run :
  spec_obs (delivered run)
  = mkStream (filter (enabled merged) survivors)
      (verdict discoveryOrder settings configToMutate).
Proof.
  channel_of_run enabledSpecs.
  now rewrite enabledSpecs_classified, extendAll_specs.
Qed.

Lemma disabledSpec_obs_run :
  disabledSpec_obs (delivered run)
  = mkStream disabled (verdict discoveryOrder settings configToMutate).
Proof.
  channel_of_run disabledSpecs.
  now rewrite disabledSpecs_classified, extendAll_specs.
Qed.

Lemma invalidVersionSpec_obs_run :
  invalidVersionSpec_obs (delivered run)
  = mkStream (filter (fun spec => negb (isRightVersion merged spec)) survivors)
      (verdict discoveryOrder settings configToMutate).
Proof.
  channel_of_run invalidVersionSpecs.
  now rewrite invalidVersionSpecs_classified, extendAll_specs.
Qed.

Lemma world_run :
  world run
  = mkWorld (disabledBy disabled merged)
      (extendEvents settings survivors start
         ++ flat_map (classifyEvents merged) survivors
         ++ disableEvents disabled merged).
Proof. now rewrite findPluginSpecs_run. Qed.

(** The surviving specs are the collected ones when the conflict detector
    lets them pass, and none when it throws. *)
Lemma survivors_collected :
  Permutation survivors
    (match verdict discoveryOrder settings configToMutate with
     | Completed => collectedSpecs discoveryOrder settings configToMutate
     | Failed _ => []
     end).
Proof.
  unfold survivingSpecs, verdict.
  rewrite failOnConflicts_firstConflict.
  destruct (firstConflict _); [reflexivity | apply settle_Permutation].
Qed.

(** No two surviving specs share an identifier. *)
Lemma survivors_NoDup : NoDup (map (@getId Config) survivors).
Proof.
  unfold survivingSpecs.
  destruct (failOnConflicts _) as [thrown | allSpecs] eqn:E; [constructor |].
  rewrite failOnConflicts_firstConflict in E.
  destruct (firstConflict _) eqn:F; [discriminate |].
  inversion E; subst. apply firstConflict_None in F.
  eapply Permutation_NoDup; [| exact F].
  apply Permutation_map. symmetry. apply settle_Permutation.
Qed.

Lemma filter_partition_Permutation (A : Type) (p : A -> bool) (l : list A) :
  Permutation (filter p l ++ filter (fun a => negb (p a)) l) l.
Proof.
  induction l as [| a l IH]; simpl; [reflexivity |].
  destruct (p a); simpl.
  - now constructor.
  - rewrite <- Permutation_middle. now constructor.
Qed.


(* ================================================================== *)
(** ** The claims of the specification *)

Local Notation "'collected'" :=
  (collectedSpecs discoveryOrder settings configToMutate).

(** C1 (as the code has it).  When two collected specs declare one
    identifier, the run fails before any routine of a spec is called: every
    channel fed by [extendConfig$] ends, without a value, with the error
    thrown by the conflict check, the log of calls is empty and the
    configuration is the one the run started with.  The message names the
    first identifier, in the order the specs are collected, that more than
    one spec declares, and the path of every spec that declares that
    identifier. *)
Theorem conflict_fails_before_any_extension
  (l1 l2 l3 : list (PluginSpec Config)) (spec1 spec2 : PluginSpec Config) :
  collected = l1 ++ spec1 :: l2 ++ spec2 :: l3 ->
  getId spec1 = getId spec2 ->
  exists id : string,
    firstConflict collected = Some id
    /\ (let thrown := conflictMessage id (specsWithId id collected) in
        let failed (A : Type) : Stream A :=
          mkStream [] (Failed (ThrownError thrown)) in
        spec_obs (delivered run) = failed _
        /\ disabledSpec_obs (delivered run) = failed _
        /\ invalidVersionSpec_obs (delivered run) = failed _
        /\ deprecation_obs (delivered run) = failed _
        /\ extendedConfig_obs (delivered run) = failed _
        /\ log (world run) = []
        /\ shared (world run) = start
        /\ Js.includes thrown id = true
        /\ forall spec,
             In spec collected -> getId spec = id ->
             Js.includes thrown (getPath spec) = true).
Proof.
  intros Hcollected Hid.
  destruct (firstConflict collected) as [id |] eqn:F.
  2:{ exfalso. revert F. rewrite Hcollected.
      now apply firstConflict_shared. }
  exists id. split; [reflexivity |].
  assert (Hfail : failOnConflicts collected
                  = inl (ThrownError
                           (conflictMessage id (specsWithId id collected)))).
  { now rewrite failOnConflicts_firstConflict, F. }
  assert (Hsurv : survivors = []).
  { unfold survivingSpecs. now rewrite Hfail. }
  assert (Hverdict : verdict discoveryOrder settings configToMutate
                     = Failed (ThrownError
                         (conflictMessage id (specsWithId id collected)))).
  { unfold verdict. now rewrite Hfail. }
  assert (Hhanded : handed discoveryOrder extensionOrder settings
                      configToMutate = []).
  { unfold handed. now rewrite Hsurv. }
  cbv zeta.
  rewrite spec_obs_run, disabledSpec_obs_run, invalidVersionSpec_obs_run,
    world_run, Hsurv, Hverdict.
  repeat split; try reflexivity.
  - rewrite findPluginSpecs_run. unfold channels, Recorded.mergeMap.
    simpl. now rewrite Hhanded, Hverdict.
  - rewrite findPluginSpecs_run. simpl.
    rewrite Hhanded, Hverdict. reflexivity.
  - unfold mergedConfig. now rewrite Hsurv.
  - apply firstConflict_Some in F.
    destruct (specsWithId id collected) as [| spec rest] eqn:G;
      [simpl in F; lia |].
    apply (conflictMessage_names id (spec :: rest) spec). now left.
  - intros spec Hin Hspec.
    apply conflictMessage_names. unfold specsWithId.
    apply filter_In. split; [exact Hin |]. now apply String.eqb_eq.
Qed.

(** C3.  In every run the specs delivered on [spec$] and those delivered on
    [disabledSpec$] are disjoint and together are the surviving specs,
    each once; every spec delivered on [invalidVersionSpec$] is delivered
    on [disabledSpec$].  The surviving specs are the collected specs when
    the conflict detector lets them pass, and their identifiers are
    pairwise distinct. *)
Theorem enabled_and_disabled_partition_the_specs :
  let enabledSpecs := emitted (spec_obs (delivered run)) in
  let disabledSpecs := emitted (disabledSpec_obs (delivered run)) in
  let invalidVersionSpecs := emitted (invalidVersionSpec_obs (delivered run)) in
  Permutation (enabledSpecs ++ disabledSpecs) survivors
  /\ (forall spec, In spec enabledSpecs -> ~ In spec disabledSpecs)
  /\ (forall spec, In spec survivors ->
                   In spec enabledSpecs \/ In spec disabledSpecs)
  /\ incl invalidVersionSpecs disabledSpecs
  /\ Permutation survivors
       (match ending (spec_obs (delivered run)) with
        | Completed => collected
        | Failed _ => []
        end)
  /\ NoDup (map (@getId Config) survivors).
Proof.
  cbv zeta.
  rewrite spec_obs_run, disabledSpec_obs_run, invalidVersionSpec_obs_run.
  simpl. repeat split.
  - apply filter_partition_Permutation.
  - intros spec Hen Hdis. apply filter_In in Hen, Hdis.
    destruct Hen as [_ Hen]. destruct Hdis as [_ Hdis].
    rewrite Hen in Hdis. discriminate.
  - intros spec Hin. destruct (enabled merged spec) eqn:E.
    + left. apply filter_In. now split.
    + right. apply filter_In. split; [exact Hin | now rewrite E].
  - intros spec Hin. apply filter_In in Hin. destruct Hin as [Hin Hv].
    apply filter_In. split; [exact Hin |].
    unfold enabled. apply negb_true_iff in Hv. now rewrite Hv.
  - apply survivors_collected.
  - apply survivors_NoDup.
Qed.

(** C4.  The function given to [map] classifies a spec by
    [isRightVersion = spec.isVersionCompatible(config.get("pkg.version"))]
    and [enabled = isRightVersion && spec.isEnabled(config)] on the
    configuration it finds; in a run it finds the fully merged
    configuration for every spec, so a surviving spec is delivered on
    [spec$] exactly when it is enabled on the merged configuration, on
    [disabledSpec$] exactly when it is not, and on [invalidVersionSpec$]
    exactly when it is not of the right version. *)
Theorem classification_reads_the_merged_configuration :
  (forall (config : ConfigRef) (extended : Extended) w,
      let spec := e_spec extended in
      let isRightVersion :=
        isVersionCompatible spec (get_pkg_version (shared w)) in
      let enabled := isRightVersion && isEnabled spec (shared w) in
      fst (classify config extended w)
      = mkResult config spec (e_deprecations extended)
          (if enabled then [spec] else [])
          (if enabled then [] else [spec])
          (if isRightVersion then [] else [spec]))
  /\ map result (handed discoveryOrder extensionOrder settings configToMutate)
     = map (classified merged SharedConfig)
         (extendAll settings survivors start)
  /\ map e_spec (extendAll settings survivors start) = survivors
  /\ emitted (spec_obs (delivered run)) = filter (enabled merged) survivors
  /\ emitted (disabledSpec_obs (delivered run))
     = filter (fun spec => negb (enabled merged spec)) survivors
  /\ emitted (invalidVersionSpec_obs (delivered run))
     = filter (fun spec => negb (isRightVersion merged spec)) survivors
  /\ (forall spec,
        In spec (emitted (spec_obs (delivered run)))
        <-> In spec survivors
            /\ isVersionCompatible spec (get_pkg_version merged)
               && isEnabled spec merged = true)
  /\ (forall spec,
        In spec (emitted (invalidVersionSpec_obs (delivered run)))
        <-> In spec survivors
            /\ isVersionCompatible spec (get_pkg_version merged) = false).
Proof.
  rewrite spec_obs_run, disabledSpec_obs_run, invalidVersionSpec_obs_run.
  simpl. repeat apply conj; try reflexivity.
  - intros config extended w. now rewrite classify_run.
  - unfold handed. apply deliveries_results.
  - apply extendAll_specs.
  - intros spec. rewrite filter_In. reflexivity.
  - intros spec. rewrite filter_In. unfold isRightVersion.
    now rewrite negb_true_iff.
Qed.


(** *** Contributions to the configuration

    What it means for the configuration to reflect the contribution of a
    spec is the business of [./plugin_config]; the pipeline is verified for
    every notion [contributed] that extension establishes and keeps, and
    that disabling removes and does not bring back. *)

Section Contributions.

Variable contributed : PluginSpec Config -> Config -> bool.

Section Extension.

Hypothesis extension_contributes :
  forall spec c,
    contributed spec (fst (extendConfigService spec c settings)) = true.
Hypothesis extension_keeps :
  forall spec other c,
    contributed other c = true ->
    contributed other (fst (extendConfigService spec c settings)) = true.

Lemma extendedBy_keeps (specs : list (PluginSpec Config)) :
  forall other c,
    contributed other c = true ->
    contributed other (extendedBy settings specs c) = true.
Proof.
  induction specs as [| spec rest IH]; intros other c H; simpl; [exact H |].
  apply IH. now apply extension_keeps.
Qed.

Lemma extendedBy_contributes (specs : list (PluginSpec Config)) :
  forall spec c,
    In spec specs -> contributed spec (extendedBy settings specs c) = true.
Proof.
  induction specs as [| first rest IH]; intros spec c Hin; [contradiction |].
  simpl. destruct Hin as [-> | Hin].
  - apply extendedBy_keeps, extension_contributes.
  - now apply IH.
Qed.

End Extension.

Section Rollback.

Hypothesis disabling_removes :
  forall spec c, contributed spec (disableConfigExtension spec c) = false.
Hypothesis disabling_keeps_out :
  forall spec other c,
    contributed other c = false ->
    contributed other (disableConfigExtension spec c) = false.

Lemma disabledBy_keeps_out (specs : list (PluginSpec Config)) :
  forall other c,
    contributed other c = false ->
    contributed other (disabledBy specs c) = false.
Proof.
  induction specs as [| spec rest IH]; intros other c H; simpl; [exact H |].
  apply IH. now apply disabling_keeps_out.
Qed.

Lemma disabledBy_removes (specs : list (PluginSpec Config)) :
  forall spec c,
    In spec specs -> contributed spec (disabledBy specs c) = false.
Proof.
  induction specs as [| first rest IH]; intros spec c Hin; [contradiction |].
  simpl. destruct Hin as [-> | Hin].
  - apply disabledBy_keeps_out, disabling_removes.
  - now apply IH.
Qed.

End Rollback.

End Contributions.

Lemma extendEvents_calls (specs : list (PluginSpec Config)) :
  forall c,
    map (fun e => (routine e, callee e)) (extendEvents settings specs c)
    = map (pair ExtendConfigService) specs.
Proof.
  induction specs as [| spec rest IH]; intros c; simpl; [reflexivity |].
  now rewrite IH.
Qed.

Lemma disableEvents_calls (specs : list (PluginSpec Config)) :
  forall c,
    map (fun e => (routine e, callee e)) (disableEvents specs c)
    = map (pair DisableConfigExtension) specs.
Proof.
  induction specs as [| spec rest IH]; intros c; simpl; [reflexivity |].
  now rewrite IH.
Qed.

Lemma classifyEvents_found (specs : list (PluginSpec Config)) (c : Config) :
  Forall (fun e => found e = c
                   /\ (routine e = IsVersionCompatible \/ routine e = IsEnabled))
    (flat_map (classifyEvents c) specs).
Proof.
  induction specs as [| spec rest IH]; simpl; [constructor |].
  constructor; [simpl; auto |].
  destruct (isRightVersion c spec); simpl; [constructor |]; auto.
Qed.

(** C2.  In every run the log of calls is: one call of
    [extendConfigService] for every surviving spec; then the calls that
    classify the specs ([isVersionCompatible], and [isEnabled] on a spec of
    the right version), every one of them finding the fully merged
    configuration; then one call of [disableConfigExtension] for every
    spec delivered on [disabledSpec$], the first of them finding the fully
    merged configuration.  That configuration reflects the contribution of
    every surviving spec, and the configuration the run leaves reflects the
    contribution of no disabled spec, for every notion of contribution
    that extension establishes and keeps and that disabling removes and
    does not bring back. *)
Theorem barriers_order_extension_classification_and_rollback :
  let disabledSpecs := emitted (disabledSpec_obs (delivered run)) in
  let extensions := extendEvents settings survivors start in
  let classifications := flat_map (classifyEvents merged) survivors in
  let rollbacks := disableEvents disabledSpecs merged in
  log (world run) = extensions ++ classifications ++ rollbacks
  /\ map (fun e => (routine e, callee e)) extensions
     = map (pair ExtendConfigService) survivors
  /\ Forall (fun e => found e = merged
                      /\ (routine e = IsVersionCompatible
                          \/ routine e = IsEnabled)) classifications
  /\ (forall spec,
        In spec survivors ->
        In (mkEvent IsVersionCompatible spec merged) classifications)
  /\ map (fun e => (routine e, callee e)) rollbacks
     = map (pair DisableConfigExtension) disabledSpecs
  /\ (forall e, hd_error rollbacks = Some e -> found e = merged)
  /\ merged = extendedBy settings survivors start
  /\ shared (world run) = disabledBy disabledSpecs merged
  /\ (forall contributed : PluginSpec Config -> Config -> bool,
        (forall spec c,
            contributed spec (fst (extendConfigService spec c settings))
            = true) ->
        (forall spec other c,
            contributed other c = true ->
            contributed other (fst (extendConfigService spec c settings))
            = true) ->
        forall spec, In spec survivors -> contributed spec merged = true)
  /\ (forall contributed : PluginSpec Config -> Config -> bool,
        (forall spec c,
            contributed spec (disableConfigExtension spec c) = false) ->
        (forall spec other c,
            contributed other c = false ->
            contributed other (disableConfigExtension spec c) = false) ->
        forall spec,
          In spec disabledSpecs ->
          contributed spec (shared (world run)) = false).
Proof.
  cbv zeta. rewrite disabledSpec_obs_run, world_run. simpl.
  repeat apply conj; try reflexivity.
  - apply extendEvents_calls.
  - apply classifyEvents_found.
  - intros spec Hin. apply in_flat_map. exists spec.
    split; [exact Hin | now left].
  - apply disableEvents_calls.
  - intros e. destruct disabled as [| spec rest]; simpl; [discriminate |].
    intros E. now inversion E.
  - intros contributed Hadd Hkeep spec Hin.
    now apply extendedBy_contributes.
  - intros contributed Hremove Hout spec Hin.
    now apply disabledBy_removes.
Qed.


(** *** The discovery channels *)

Lemma discovery_channels_run :
  let found := packageJson_shared discoveryOrder start in
  let packs := pack_shared discoveryOrder start in
  packageJson_obs (delivered run)
  = mkStream (flat_map (fun r => arrayOf (fr_packageJson r)) found) Completed
  /\ pack_obs (delivered run)
     = mkStream (flat_map (fun r => arrayOf (pr_pack r)) packs) Completed
  /\ invalidDirectoryError_obs (delivered run)
     = mkStream (flat_map (errorIf isInvalidDirectoryError) packs) Completed
  /\ invalidPackError_obs (delivered run)
     = mkStream (flat_map (errorIf isInvalidPackError) packs) Completed
  /\ otherError_obs (delivered run)
     = mkStream (flat_map (errorIf isUnhandledError) packs) Completed.
Proof. rewrite findPluginSpecs_run. now repeat split. Qed.

(** C5 (the code where the claim fails).  With no configured path and no
    scan directory, and a pack synthesizer that makes nothing of nothing,
    every channel but [extendedConfig$] completes without a value and the
    configuration is left as it was; [extendedConfig$] delivers no value
    either: it ends with the [EmptyError] of [last()].  When specs do
    survive and the configuration service is not itself a stream,
    [extendedConfig$] delivers no value and ends with the [TypeError] of
    [mergeMap]. *)
Theorem extendedConfig_obs_fails_when_no_spec_is_found :
  (get_plugins_paths start = [] ->
   get_plugins_scanDirs start = [] ->
   createPack_obs [] = [] ->
   extendedConfig_obs (delivered run) = mkStream [] (Failed EmptyError)
   /\ packageJson_obs (delivered run) = mkStream [] Completed
   /\ pack_obs (delivered run) = mkStream [] Completed
   /\ invalidDirectoryError_obs (delivered run) = mkStream [] Completed
   /\ invalidPackError_obs (delivered run) = mkStream [] Completed
   /\ otherError_obs (delivered run) = mkStream [] Completed
   /\ deprecation_obs (delivered run) = mkStream [] Completed
   /\ spec_obs (delivered run) = mkStream [] Completed
   /\ disabledSpec_obs (delivered run) = mkStream [] Completed
   /\ invalidVersionSpec_obs (delivered run) = mkStream [] Completed
   /\ world run = mkWorld start [])
  /\ (survivors <> [] ->
      (forall c : Config, Config_items c = None) ->
      extendedConfig_obs (delivered run) = mkStream [] (Failed TypeError)).
Proof.
  split.
  - intros Hpaths Hdirs Hpack.
    assert (Hfound : packageJson_shared discoveryOrder start = []).
    { unfold packageJson_shared. now rewrite Hpaths, Hdirs. }
    assert (Hpacks : pack_shared discoveryOrder start = []).
    { unfold pack_shared. now rewrite Hfound. }
    assert (Hcollected : collected = []).
    { unfold collectedSpecs. now rewrite Hpacks. }
    assert (Hsurv : survivors = []).
    { unfold survivingSpecs. now rewrite Hcollected. }
    assert (Hverdict : verdict discoveryOrder settings configToMutate
                       = Completed).
    { unfold verdict. now rewrite Hcollected. }
    assert (Hhanded : handed discoveryOrder extensionOrder settings
                        configToMutate = []).
    { unfold handed. now rewrite Hsurv. }
    destruct discovery_channels_run as (-> & -> & -> & -> & ->).
    rewrite spec_obs_run, disabledSpec_obs_run, invalidVersionSpec_obs_run,
      world_run, Hsurv, Hverdict, Hfound, Hpacks.
    repeat apply conj; try reflexivity.
    + rewrite findPluginSpecs_run. simpl. now rewrite Hhanded, Hverdict.
    + rewrite findPluginSpecs_run. unfold channels, Recorded.mergeMap. simpl.
      now rewrite Hhanded, Hverdict.
    + unfold mergedConfig. now rewrite Hsurv.
  - intros Hsurv Hitems. rewrite findPluginSpecs_run. simpl.
    unfold handed.
    destruct survivors as [| spec rest]; [contradiction |]. simpl.
    unfold Recorded.mergeMapInput, configAsStream. simpl.
    now rewrite Hitems.
Qed.


(** *** Deduplication *)

Lemma DistinctKey_eqb_eq (a b : DistinctKey) :
  DistinctKey_eqb a b = true <-> a = b.
Proof.
  destruct a as [s | r], b as [s' | r']; simpl.
  - rewrite String.eqb_eq. split; congruence.
  - split; discriminate.
  - split; discriminate.
  - rewrite Nat.eqb_eq. split; congruence.
Qed.

Lemma existsb_DistinctKey (k : DistinctKey) (keys : list DistinctKey) :
  existsb (DistinctKey_eqb k) keys = true <-> In k keys.
Proof.
  rewrite existsb_exists. split.
  - intros [k' [Hin E]]. apply DistinctKey_eqb_eq in E. now subst.
  - intros Hin. exists k. split; [exact Hin | now apply DistinctKey_eqb_eq].
Qed.

Lemma existsb_same (k : DistinctKey) (l1 l2 : list DistinctKey) :
  (In k l1 <-> In k l2) ->
  existsb (DistinctKey_eqb k) l1 = existsb (DistinctKey_eqb k) l2.
Proof.
  intros H. apply eq_true_iff_eq. now rewrite !existsb_DistinctKey.
Qed.

Section Distinct.

Variable A : Type.
Variable key : A -> DistinctKey.

(** A value passes [distinct] exactly when no earlier value has its
    key. *)
Lemma distinct_from_snoc (l : list A) (a : A) :
  forall seen,
    distinct_from key seen (l ++ [a])
    = distinct_from key seen l
        ++ (if existsb (DistinctKey_eqb (key a)) (map key l ++ seen)
            then [] else [a]).
Proof.
  induction l as [| b l IH]; intros seen; simpl.
  - now destruct (existsb (DistinctKey_eqb (key a)) seen).
  - destruct (existsb (DistinctKey_eqb (key b)) seen) eqn:E.
    + rewrite IH.
      replace (DistinctKey_eqb (key a) (key b)
               || existsb (DistinctKey_eqb (key a)) (map key l ++ seen))
        with (existsb (DistinctKey_eqb (key a)) (map key l ++ seen));
        [reflexivity |].
      destruct (DistinctKey_eqb (key a) (key b)) eqn:Eab; [| reflexivity].
      apply DistinctKey_eqb_eq in Eab. rewrite Eab.
      rewrite existsb_app, E. apply orb_true_r.
    + simpl. rewrite IH. do 2 f_equal.
      replace (existsb (DistinctKey_eqb (key a)) (map key l ++ key b :: seen))
        with (DistinctKey_eqb (key a) (key b)
              || existsb (DistinctKey_eqb (key a)) (map key l ++ seen));
        [reflexivity |].
      rewrite !existsb_app. simpl.
      destruct (DistinctKey_eqb (key a) (key b)); simpl;
        [now rewrite !orb_true_r | reflexivity].
Qed.

Lemma distinct_snoc (l : list A) (a : A) :
  distinct key (l ++ [a])
  = distinct key l
      ++ (if existsb (DistinctKey_eqb (key a)) (map key l) then [] else [a]).
Proof.
  unfold distinct. rewrite distinct_from_snoc. now rewrite app_nil_r.
Qed.

(** Every key of the source is a key of what passes, and conversely. *)
Lemma distinct_keys (l : list A) (k : DistinctKey) :
  In k (map key (distinct key l)) <-> In k (map key l).
Proof.
  induction l as [| a l IH] using rev_ind; [reflexivity |].
  rewrite distinct_snoc, !map_app, !in_app_iff, IH.
  destruct (existsb (DistinctKey_eqb (key a)) (map key l)) eqn:E; simpl.
  - apply existsb_DistinctKey in E. intuition congruence.
  - reflexivity.
Qed.

(** No key passes twice. *)
Lemma distinct_NoDup (l : list A) : NoDup (map key (distinct key l)).
Proof.
  induction l as [| a l IH] using rev_ind; [constructor |].
  rewrite distinct_snoc.
  destruct (existsb (DistinctKey_eqb (key a)) (map key l)) eqn:E.
  - now rewrite app_nil_r.
  - rewrite map_app. simpl. apply NoDup_app.
    + exact IH.
    + repeat constructor. intros [].
    + intros k Hk [<- | []]. apply (proj1 (distinct_keys _ _)) in Hk.
      apply existsb_DistinctKey in Hk. congruence.
Qed.

(** What passes comes from the source. *)
Lemma distinct_incl (l : list A) : incl (distinct key l) l.
Proof.
  induction l as [| a l IH] using rev_ind; [intros x [] |].
  rewrite distinct_snoc. intros x Hx. apply in_app_iff in Hx.
  apply in_app_iff. destruct Hx as [Hx | Hx]; [left; now apply IH |].
  destruct (existsb _ _); [contradiction | now right].
Qed.

End Distinct.


Lemma flat_map_errorIf (predicate : option Error -> bool)
  (packs : list (PackResult Config Error)) :
  flat_map (errorIf predicate) packs = filter predicate (map (@pr_error Config Error) packs).
Proof.
  induction packs as [| r packs IH]; simpl; [reflexivity |].
  unfold errorIf at 1. rewrite IH. now destruct (predicate (pr_error r)).
Qed.

Lemma three_filters_Permutation (A : Type) (p1 p2 p3 q : A -> bool)
  (l : list A) :
  (forall a, q a = true ->
             Nat.b2n (p1 a) + Nat.b2n (p2 a) + Nat.b2n (p3 a) = 1) ->
  (forall a, q a = false -> p1 a = false /\ p2 a = false /\ p3 a = false) ->
  Permutation (filter p1 l ++ filter p2 l ++ filter p3 l) (filter q l).
Proof.
  intros Hone Hnone. induction l as [| a l IH]; simpl; [reflexivity |].
  destruct (q a) eqn:Eq.
  - specialize (Hone a Eq).
    destruct (p1 a), (p2 a), (p3 a); simpl in Hone; try lia; simpl.
    + now constructor.
    + rewrite <- Permutation_middle. now constructor.
    + rewrite app_assoc, <- Permutation_middle, <- app_assoc.
      now constructor.
  - destruct (Hnone a Eq) as (-> & -> & ->). exact IH.
Qed.










(** *** The config source *)

Lemma subscriptions_replay (n : nat) (config : Config) (count : nat) :
  subscriptions settings configToMutate n (mkReplaySubject (Some config) count)
  = (repeat config n, mkReplaySubject (Some config) count).
Proof.
  induction n as [| n IH]; simpl; [reflexivity |]. now rewrite IH.
Qed.

(** C7.  The deferred function returns the caller's configuration service
    when one is given and otherwise the default schema applied to the
    deprecation-transformed settings.  However many subscribers [config$]
    gets, each of them is handed the value of the deferred function and the
    function is evaluated once and no more; a run, which subscribes to
    [config$] for [extendConfig$] and for [packageJson$], evaluates it
    once. *)
Theorem config_source_is_evaluated_once :
  (forall config : Config, config_deferred settings (Some config) = config)
  /\ config_deferred settings None
     = Config_withDefaultSchema (transformDeprecations settings)
  /\ (forall n : nat,
        let observed :=
          subscriptions settings configToMutate n unsubscribed in
        fst observed = repeat start n
        /\ evaluations (snd observed) <= 1
        /\ evaluations (snd observed) = Nat.min n 1)
  /\ config_subject run = mkReplaySubject (Some start) 1.
Proof.
  repeat apply conj; try reflexivity.
  - intros n. destruct n as [| n]; simpl; [repeat split; lia |].
    rewrite subscriptions_replay. simpl. repeat split; lia.
  - now rewrite findPluginSpecs_run.
Qed.

(** *** The error channels *)

(** C8.  Each error channel delivers the errors of the pack results that
    its predicate accepts, in their order: [isInvalidDirectoryError],
    [isInvalidPackError], and for [otherError$] neither of the two.  Every
    error is accepted for at least one channel, and an error accepted for
    [otherError$] is accepted for no other.  When the two predicates of
    [./errors] exclude each other, every error is accepted for exactly one
    channel; when they also reject a missing error, the three channels
    together deliver every error of the pack results once. *)
Theorem every_error_reaches_exactly_one_channel :
  let packs := pack_shared discoveryOrder start in
  let errors := map (@pr_error Config Error) packs in
  let exclusive :=
    forall e : Error,
      isInvalidDirectoryError (Some e) && isInvalidPackError (Some e)
      = false in
  invalidDirectoryError_obs (delivered run)
  = mkStream (filter isInvalidDirectoryError errors) Completed
  /\ invalidPackError_obs (delivered run)
     = mkStream (filter isInvalidPackError errors) Completed
  /\ otherError_obs (delivered run)
     = mkStream
         (filter (fun error =>
                    match error with
                    | Some _ => negb (isInvalidDirectoryError error)
                                && negb (isInvalidPackError error)
                    | None => false
                    end) errors) Completed
  /\ (forall e : Error,
        isInvalidDirectoryError (Some e) || isInvalidPackError (Some e)
        || isUnhandledError (Some e) = true)
  /\ (forall e : Error,
        isUnhandledError (Some e) = true ->
        isInvalidDirectoryError (Some e) = false
        /\ isInvalidPackError (Some e) = false)
  /\ (exclusive ->
      forall e : Error,
        Nat.b2n (isInvalidDirectoryError (Some e))
        + Nat.b2n (isInvalidPackError (Some e))
        + Nat.b2n (isUnhandledError (Some e)) = 1)
  /\ (exclusive ->
      isInvalidDirectoryError None = false ->
      isInvalidPackError None = false ->
      Permutation
        (emitted (invalidDirectoryError_obs (delivered run))
           ++ emitted (invalidPackError_obs (delivered run))
           ++ emitted (otherError_obs (delivered run)))
        (map Some (flat_map (fun r => arrayOf (pr_error r)) packs))).
Proof.
  cbv zeta.
  assert (Hone : (forall e : Error,
                     isInvalidDirectoryError (Some e)
                     && isInvalidPackError (Some e) = false) ->
                 forall e : Error,
                   Nat.b2n (isInvalidDirectoryError (Some e))
                   + Nat.b2n (isInvalidPackError (Some e))
                   + Nat.b2n (isUnhandledError (Some e)) = 1).
  { intros Hexclusive e. specialize (Hexclusive e). unfold isUnhandledError.
    destruct (isInvalidDirectoryError (Some e)),
      (isInvalidPackError (Some e)); simpl in *; congruence. }
  destruct discovery_channels_run as (_ & _ & -> & -> & ->).
  rewrite !flat_map_errorIf. simpl.
  repeat apply conj; try reflexivity.
  - intros e. unfold isUnhandledError.
    now destruct (isInvalidDirectoryError (Some e)),
      (isInvalidPackError (Some e)).
  - intros e. unfold isUnhandledError.
    now destruct (isInvalidDirectoryError (Some e)),
      (isInvalidPackError (Some e)).
  - exact Hone.
  - intros Hexclusive Hdir Hpack.
    replace (map Some
               (flat_map (fun r => arrayOf (pr_error r))
                  (pack_shared discoveryOrder start)))
      with (filter (fun error : option Error =>
                      match error with Some _ => true | None => false end)
              (map (@pr_error Config Error)
                 (pack_shared discoveryOrder start))).
    + apply three_filters_Permutation.
      * intros [e |]; [intros _; now apply Hone | discriminate].
      * intros [e |]; [discriminate | intros _]. now rewrite Hdir, Hpack.
    + induction (pack_shared discoveryOrder start) as [| r packs IH];
        simpl; [reflexivity |].
      destruct (pr_error r); simpl; now rewrite IH.
Qed.

(** C10.  A pack result without an error is delivered on none of the three
    error channels: [isUnhandledError] rejects a missing error whatever the
    two predicates say, so [otherError$] never delivers one; the other two
    channels deliver none as the predicates of [./errors] reject a missing
    error themselves. *)
Theorem a_result_without_error_reaches_no_error_channel :
  isUnhandledError None = false
  /\ (forall r : PackResult Config Error,
        pr_error r = None -> errorIf isUnhandledError r = [])
  /\ ~ In None (emitted (otherError_obs (delivered run)))
  /\ (isInvalidDirectoryError None = false ->
      (forall r : PackResult Config Error,
          pr_error r = None -> errorIf isInvalidDirectoryError r = [])
      /\ ~ In None (emitted (invalidDirectoryError_obs (delivered run))))
  /\ (isInvalidPackError None = false ->
      (forall r : PackResult Config Error,
          pr_error r = None -> errorIf isInvalidPackError r = [])
      /\ ~ In None (emitted (invalidPackError_obs (delivered run)))).
Proof.
  destruct discovery_channels_run as (_ & _ & -> & -> & ->).
  rewrite !flat_map_errorIf. simpl.
  repeat apply conj.
  - reflexivity.
  - intros r He. unfold errorIf. now rewrite He.
  - intros Hin. apply filter_In in Hin. destruct Hin as [_ H]. discriminate.
  - intros Hdir. split.
    + intros r He. unfold errorIf. now rewrite He, Hdir.
    + intros Hin. apply filter_In in Hin. destruct Hin as [_ H]. congruence.
  - intros Hpack. split.
    + intros r He. unfold errorIf. now rewrite He, Hpack.
    + intros Hin. apply filter_In in Hin. destruct Hin as [_ H]. congruence.
Qed.

(** C9.  A pack result without a pack has no specs, so the specs collected
    with it are the specs collected without it, and [extendConfig$] hands
    its subscribers what it hands them without it and leaves the world it
    leaves without it: the result takes part in no conflict, no routine is
    called for it, nothing of it is delivered, and it does not make the
    stage fail. *)
Theorem a_result_without_pack_adds_no_specs
  (r : PackResult Config Error) (before after : list (PackResult Config Error))
  (config : ConfigRef) w :
  pr_pack r = None ->
  specsOf r = []
  /\ flat_map specsOf (before ++ r :: after)
     = flat_map specsOf (before ++ after)
  /\ failOnConflicts (flat_map specsOf (before ++ r :: after))
     = failOnConflicts (flat_map specsOf (before ++ after))
  /\ subscribe
       (extendConfig_shared extensionOrder settings config
          (before ++ r :: after) |> map_ (@deliver collaborators))%rx w
     = subscribe
         (extendConfig_shared extensionOrder settings config
            (before ++ after) |> map_ (@deliver collaborators))%rx w.
Proof.
  intros Hpack.
  assert (Hr : specsOf r = []) by (unfold specsOf; now rewrite Hpack).
  assert (Hall : flat_map specsOf (before ++ r :: after)
                 = flat_map specsOf (before ++ after)).
  { rewrite !flat_map_app. simpl. now rewrite Hr. }
  repeat apply conj.
  - exact Hr.
  - exact Hall.
  - now rewrite Hall.
  - rewrite !extendConfig_shared_passes. unfold passes. now rewrite Hall.
Qed.


(* ================================================================== *)
(** ** More of find_plugin_specs.js *)

(** *** [groupSpecsById] *)

Lemma specsWithId_none (id : string) (allSpecs : list (PluginSpec Config)) :
  ~ In id (map (@getId Config) allSpecs) -> specsWithId id allSpecs = [].
Proof.
  intros Hout. apply specsWithId_absent.
  destruct (existsb _ _) eqn:E; [| reflexivity].
  apply existsb_eqb_In in E. contradiction.
Qed.

Lemma groups_of_other_ids (spec : PluginSpec Config)
  (allSpecs : list (PluginSpec Config)) (keys : list string) :
  ~ In (getId spec) keys ->
  flat_map (fun id => specsWithId id (spec :: allSpecs)) keys
  = flat_map (fun id => specsWithId id allSpecs) keys.
Proof.
  intros Hout. induction keys as [| k keys IH]; [reflexivity |].
  cbn [flat_map]. rewrite IH by (intros H; apply Hout; now right).
  f_equal. unfold specsWithId. simpl.
  destruct (String.eqb (getId spec) k) eqn:E; [| reflexivity].
  apply String.eqb_eq in E. exfalso. apply Hout. now left.
Qed.

(** Groups taken for pairwise distinct identifiers that cover the specs
    hold every spec once. *)
Lemma groups_Permutation (allSpecs : list (PluginSpec Config)) :
  forall keys : list string,
    NoDup keys -> incl (map (@getId Config) allSpecs) keys ->
    Permutation (flat_map (fun id => specsWithId id allSpecs) keys) allSpecs.
Proof.
  induction allSpecs as [| spec rest IH]; intros keys Hnd Hincl.
  - induction keys as [| k keys IHk]; simpl; [reflexivity |].
    inversion Hnd; subst. apply IHk; [assumption | intros x []].
  - assert (Hin : In (getId spec) keys) by (apply Hincl; now left).
    destruct (in_split _ _ Hin) as (k1 & k2 & ->).
    apply NoDup_remove in Hnd. destruct Hnd as [Hnd Hout].
    rewrite flat_map_app. cbn [flat_map].
    rewrite !groups_of_other_ids
      by (intros H; apply Hout; apply in_or_app; auto).
    replace (specsWithId (getId spec) (spec :: rest))
      with (spec :: specsWithId (getId spec) rest)
      by (unfold specsWithId; simpl; now rewrite String.eqb_refl).
    simpl. rewrite <- Permutation_middle. constructor.
    assert (Hnd' : NoDup (k1 ++ getId spec :: k2)).
    { apply NoDup_app_remove_l in Hnd as Hk2.
      apply (NoDup_Add (a := getId spec) (l := k1 ++ k2)).
      - apply Add_app.
      - now split. }
    specialize (IH (k1 ++ getId spec :: k2) Hnd').
    rewrite flat_map_app in IH. cbn [flat_map] in IH. apply IH.
    intros x Hx. apply Hincl. now right.
Qed.

(** X1.  [groupSpecsById] makes one group per identifier, in the order in
    which the identifiers first occur.  The group of an identifier holds
    the specs that declare it, in their order, and is never empty; an
    identifier no spec declares has no group; the groups together hold
    every spec once. *)
Theorem groupSpecsById_partitions_the_specs
  (allSpecs : list (PluginSpec Config)) :
  let specsById := groupSpecsById allSpecs in
  NoDup (map fst specsById)
  /\ map fst specsById = uniq (map (@getId Config) allSpecs)
  /\ (forall id : string,
        JsMap.get specsById id
        = if existsb (String.eqb id) (map (@getId Config) allSpecs)
          then Some (specsWithId id allSpecs)
          else None)
  /\ (forall (id : string) (group : list (PluginSpec Config)),
        In (id, group) specsById ->
        group = specsWithId id allSpecs
        /\ group <> []
        /\ Forall (fun spec => getId spec = id) group)
  /\ Permutation (concat (map snd specsById)) allSpecs
  /\ (allSpecs = [] -> specsById = []).
Proof.
  cbv zeta. rewrite groupSpecsById_groups. unfold groups.
  rewrite map_map. simpl. rewrite map_id.
  repeat apply conj.
  - apply uniq_NoDup.
  - reflexivity.
  - intros id. rewrite get_map. now rewrite uniq_existsb.
  - intros id group Hin. apply in_map_iff in Hin.
    destruct Hin as (id' & E & Hin). inversion E; subst. clear E.
    apply existsb_eqb_In in Hin. rewrite uniq_existsb in Hin.
    apply existsb_eqb_In in Hin. apply in_map_iff in Hin.
    destruct Hin as (spec & Hid & Hspec).
    repeat split.
    + intros Hnil.
      assert (Hin : In spec (specsWithId id allSpecs)).
      { apply filter_In. split; [exact Hspec | now apply String.eqb_eq]. }
      rewrite Hnil in Hin. contradiction.
    + apply Forall_forall. intros s Hs. apply filter_In in Hs.
      now apply String.eqb_eq.
  - rewrite map_map. simpl. rewrite <- flat_map_concat_map.
    apply groups_Permutation; [apply uniq_NoDup |].
    intros id Hin. apply existsb_eqb_In. rewrite uniq_existsb.
    now apply existsb_eqb_In.
  - now intros ->.
Qed.

(** X2.  The conflict check lets the collected specs pass exactly when
    their identifiers are pairwise distinct, and then hands them on as
    they are, in their order; otherwise it throws an [Error], and nothing
    else, for an identifier that more than one spec declares. *)
Theorem failOnConflicts_passes_exactly_distinct_identifiers
  (allSpecs : list (PluginSpec Config)) :
  (failOnConflicts allSpecs = inr allSpecs
   <-> NoDup (map (@getId Config) allSpecs))
  /\ (forall passed,
        failOnConflicts allSpecs = inr passed -> passed = allSpecs)
  /\ (forall thrown,
        failOnConflicts allSpecs = inl thrown ->
        exists id : string,
          thrown = ThrownError (conflictMessage id (specsWithId id allSpecs))
          /\ In id (map (@getId Config) allSpecs)
          /\ 1 < length (specsWithId id allSpecs)).
Proof.
  rewrite failOnConflicts_firstConflict.
  destruct (firstConflict allSpecs) as [id |] eqn:F.
  - split; [| split].
    + split; [discriminate |]. intros H.
      apply firstConflict_None in H. congruence.
    + discriminate.
    + intros thrown E. inversion E; subst. exists id.
      split; [reflexivity |]. split.
      * unfold firstConflict in F. now apply find_some in F.
      * now apply firstConflict_Some.
  - split; [| split].
    + split; [intros _; now apply firstConflict_None | reflexivity].
    + intros passed E. now inversion E.
    + discriminate.
Qed.

(** X3.  [bufferAllResults] is a barrier: every side effect of its source
    is over before its subscriber is handed the first value.  It hands on
    the values of a source that completes, as they are and in their order,
    and withholds the values of a source that fails. *)
Theorem bufferAllResults_holds_back_until_the_source_ends
  (A B : Type) (source : Observable World B)
  (prep : M World (list A * Ending)) (task : A -> M World B)
  (effect : B -> M World unit) w :
  Staged source prep task ->
  subscribe (bufferAllResults source |> do_ effect)%rx w
  = (p <- prep;;
     bs <- mapM task (fst p);;
     match snd p with
     | Completed =>
         mapM (fun b => effect b;;; ret b) bs;;; ret (mkStream bs Completed)
     | Failed f => ret (mkStream [] (Failed f))
     end)%rx w
  /\ subscribe (bufferAllResults source) w
     = (match ending (fst (subscribe source w)) with
        | Completed => fst (subscribe source w)
        | Failed f => mkStream [] (Failed f)
        end, snd (subscribe source w)).
Proof.
  intros H.
  pose proof (mergeMap_Staged (fun array => inr array) (toArray_Staged H))
    as Hbuffered.
  split.
  - unfold bufferAllResults.
    rewrite (subscribe_Staged w (do_Staged effect Hbuffered)).
    unfold bind, ret. destruct (prep w) as [[l e] w1]. simpl.
    destruct (mapM task l w1) as [bs w2]. simpl.
    destruct e as [| f]; simpl; [| reflexivity].
    rewrite app_nil_r.
    rewrite (mapM_ext _ (fun b => effect b;;; ret b)%rx).
    + unfold bind, ret.
      assert (Hsame : forall (l' : list B) w',
                 fst (mapM (fun b w0 => let (_, w'0) := effect b w0 in (b, w'0))
                        l' w') = l').
      { induction l' as [| b l' IH]; intros w'; simpl; [reflexivity |].
        unfold bind, ret. destruct (effect b w') as [u w3].
        specialize (IH w3). destruct (mapM _ l' w3) as [bs' w4].
        simpl in *. now rewrite IH. }
      specialize (Hsame bs w2).
      destruct (mapM _ bs w2) as [bs' w3]. simpl in Hsame. now subst.
    + intros b w'. unfold bind, ret. now destruct (effect b w').
  - unfold bufferAllResults.
    rewrite (subscribe_Staged w Hbuffered), (subscribe_Staged w H).
    unfold bind, ret. destruct (prep w) as [[l e] w1]. simpl.
    destruct (mapM task l w1) as [bs w2]. simpl.
    destruct e as [| f]; simpl; [| reflexivity].
    rewrite app_nil_r, mapM_ret. reflexivity.
Qed.

(** *** Deduplication, again *)

(** X4.  The keys of error results and of package.json results are strings
    of one set: a package.json whose canonical directory path is the
    message of an error found before it is dropped as a duplicate, and so
    is an error whose message is the canonical path of a package.json
    found before it. *)
Theorem a_message_and_a_path_can_collide
  (before : list (FindResult Error PackageJson))
  (found later : FindResult Error PackageJson) (e : Error) (p : PackageJson) :
  In found before ->
  message e = realpathSync (directoryPath p) ->
  (fr_error found = Some e ->
   fr_error later = None -> fr_packageJson later = Some p ->
   distinct getDistinctKeyForFindResult (before ++ [later])
   = distinct getDistinctKeyForFindResult before)
  /\ (fr_error found = None -> fr_packageJson found = Some p ->
      fr_error later = Some e ->
      distinct getDistinctKeyForFindResult (before ++ [later])
      = distinct getDistinctKeyForFindResult before).
Proof.
  intros Hin Hsame.
  assert (Hdrop : getDistinctKeyForFindResult found
                  = getDistinctKeyForFindResult later ->
                  distinct getDistinctKeyForFindResult (before ++ [later])
                  = distinct getDistinctKeyForFindResult before).
  { intros Hkey. rewrite distinct_snoc.
    replace (existsb _ _) with true; [apply app_nil_r |].
    symmetry. apply existsb_DistinctKey. rewrite <- Hkey.
    now apply in_map. }
  split.
  - intros He He' Hp'. apply Hdrop. unfold getDistinctKeyForFindResult.
    now rewrite He, He', Hp', Hsame.
  - intros He Hp He'. apply Hdrop. unfold getDistinctKeyForFindResult.
    now rewrite He, Hp, He', Hsame.
Qed.

(** X5.  Deduplication is idempotent and hands on a sequence without a
    repeated key as it is; it hands on nothing that was not found, and no
    more results than were found. *)
Theorem distinct_is_idempotent
  (results : list (FindResult Error PackageJson)) :
  let key := getDistinctKeyForFindResult in
  distinct key (distinct key results) = distinct key results
  /\ (NoDup (map key results) -> distinct key results = results)
  /\ incl (distinct key results) results
  /\ length (distinct key results) <= length results.
Proof.
  cbv zeta.
  assert (Hid : forall l : list (FindResult Error PackageJson),
             NoDup (map getDistinctKeyForFindResult l) ->
             distinct getDistinctKeyForFindResult l = l).
  { induction l as [| r l IH] using rev_ind; [reflexivity |].
    intros Hnd. rewrite map_app in Hnd. simpl in Hnd.
    rewrite distinct_snoc, IH by (now apply NoDup_app_remove_r in Hnd).
    apply NoDup_remove_2 in Hnd. rewrite app_nil_r in Hnd.
    destruct (existsb _ _) eqn:E; [| reflexivity].
    apply existsb_DistinctKey in E. contradiction. }
  repeat apply conj.
  - apply Hid, distinct_NoDup.
  - apply Hid.
  - apply distinct_incl.
  - induction results as [| r l IH] using rev_ind; [simpl; lia |].
    rewrite distinct_snoc, !length_app.
    destruct (existsb _ _); simpl; lia.
Qed.

(** *** The channels, again *)

(** X6.  [deprecation$] delivers the deprecations of the surviving specs
    in the order in which their extensions settle, each with the spec
    whose extension logged it, whether the spec ends up enabled or not:
    for each spec, one record per message that [extendConfigService]
    passed to the callback. *)
Theorem deprecation_obs_delivers_what_the_extensions_logged :
  deprecation_obs (delivered run)
  = mkStream
      (flat_map e_deprecations (extendAll settings survivors start))
      (verdict discoveryOrder settings configToMutate)
  /\ (forall d,
        In d (emitted (deprecation_obs (delivered run))) ->
        In (d_spec d) survivors)
  /\ (forall (spec : PluginSpec Config) (rest : list (PluginSpec Config)),
        survivors = spec :: rest ->
        emitted (deprecation_obs (delivered run))
        = map (mkDeprecation spec)
            (snd (extendConfigService spec start settings))
            ++ flat_map e_deprecations
                 (extendAll settings rest
                    (fst (extendConfigService spec start settings)))).
Proof.
  assert (Hchannel :
            deprecation_obs (delivered run)
            = mkStream
                (flat_map e_deprecations (extendAll settings survivors start))
                (verdict discoveryOrder settings configToMutate)).
  { channel_of_run r_deprecations. f_equal.
    generalize (extendAll settings survivors start) as extended.
    induction extended as [| e extended IH]; simpl; [reflexivity |].
    now rewrite IH. }
  rewrite Hchannel. simpl. repeat apply conj.
  - reflexivity.
  - intros d Hin. apply in_flat_map in Hin. destruct Hin as (e & He & Hd).
    assert (Hown : forall specs c,
               In e (extendAll settings specs c) -> d_spec d = e_spec e).
    { induction specs as [| spec rest IH]; intros c Hin; [contradiction |].
      simpl in Hin. destruct Hin as [<- | Hin]; [| now apply (IH _ Hin)].
      simpl in Hd. apply in_map_iff in Hd.
      now destruct Hd as (m & <- & _). }
    assert (Hspec : d_spec d = e_spec e) by (now apply (Hown _ _ He)).
    rewrite Hspec, <- (extendAll_specs survivors start).
    now apply in_map.
  - intros spec rest ->. reflexivity.
Qed.

(** X7.  What a run never does: it calls no routine for a spec that did
    not survive the conflict detector, it never asks a spec of the wrong
    version whether it is enabled, and it never disables an enabled
    spec.  When every surviving spec is enabled, nothing is disabled and
    the run leaves the merged configuration. *)
Theorem no_call_is_made_out_of_turn :
  (forall e, In e (log (world run)) -> In (callee e) survivors)
  /\ (forall e,
        In e (log (world run)) -> routine e = IsEnabled ->
        isRightVersion merged (callee e) = true)
  /\ (forall e,
        In e (log (world run)) -> routine e = DisableConfigExtension ->
        enabled merged (callee e) = false)
  /\ (forallb (enabled merged) survivors = true ->
      shared (world run) = merged
      /\ forall e,
           In e (log (world run)) -> routine e <> DisableConfigExtension).
Proof.
  rewrite world_run. simpl.
  assert (Hext : forall specs c e,
             In e (extendEvents settings specs c) ->
             routine e = ExtendConfigService /\ In (callee e) specs).
  { induction specs as [| spec rest IH]; intros c e Hin; [contradiction |].
    simpl in Hin. destruct Hin as [<- | Hin]; [simpl; auto |].
    destruct (IH _ _ Hin). auto with datatypes. }
  assert (Hcls : forall specs c e,
             In e (flat_map (classifyEvents c) specs) ->
             In (callee e) specs
             /\ (routine e = IsVersionCompatible
                 \/ routine e = IsEnabled
                    /\ isRightVersion c (callee e) = true)).
  { intros specs c e Hin. apply in_flat_map in Hin.
    destruct Hin as (spec & Hspec & Hin). unfold classifyEvents in Hin.
    destruct Hin as [<- | Hin]; [simpl; auto |].
    destruct (isRightVersion c spec) eqn:E; [| contradiction].
    destruct Hin as [<- | []]. simpl. auto. }
  assert (Hdis : forall specs c e,
             In e (disableEvents specs c) ->
             routine e = DisableConfigExtension /\ In (callee e) specs).
  { induction specs as [| spec rest IH]; intros c e Hin; [contradiction |].
    simpl in Hin. destruct Hin as [<- | Hin]; [simpl; auto |].
    destruct (IH _ _ Hin). auto with datatypes. }
  repeat apply conj.
  - intros e Hin. apply in_app_iff in Hin. destruct Hin as [Hin | Hin].
    + now apply Hext in Hin.
    + apply in_app_iff in Hin. destruct Hin as [Hin | Hin].
      * now apply Hcls in Hin.
      * apply Hdis in Hin. destruct Hin as [_ Hin].
        now apply filter_In in Hin.
  - intros e Hin Hr. apply in_app_iff in Hin. destruct Hin as [Hin | Hin].
    + apply Hext in Hin. destruct Hin. congruence.
    + apply in_app_iff in Hin. destruct Hin as [Hin | Hin].
      * apply Hcls in Hin. destruct Hin as [_ [H | [_ H]]];
          [congruence | exact H].
      * apply Hdis in Hin. destruct Hin. congruence.
  - intros e Hin Hr. apply in_app_iff in Hin. destruct Hin as [Hin | Hin].
    + apply Hext in Hin. destruct Hin. congruence.
    + apply in_app_iff in Hin. destruct Hin as [Hin | Hin].
      * apply Hcls in Hin. destruct Hin as [_ [H | [H _]]]; congruence.
      * apply Hdis in Hin. destruct Hin as [_ Hin].
        apply filter_In in Hin. destruct Hin as [_ Hin].
        now apply negb_true_iff in Hin.
  - intros Hall.
    assert (Hnone : disabled = []).
    { rewrite forallb_forall in Hall.
      generalize Hall. generalize survivors as specs.
      induction specs as [| spec rest IH]; intros H; simpl; [reflexivity |].
      rewrite (H spec) by now left. simpl.
      apply IH. intros x Hx. apply H. now right. }
    rewrite Hnone. simpl. split; [reflexivity |].
    rewrite app_nil_r. intros e Hin Hr.
    apply in_app_iff in Hin. destruct Hin as [Hin | Hin].
    + apply Hext in Hin. destruct Hin. congruence.
    + apply Hcls in Hin. destruct Hin as [_ [H | [H _]]]; congruence.
Qed.

(** *** A canonicalization that throws *)

Lemma key_when_returning (fs_realpathSync : string -> Failure + string)
  (results : list (FindResult Error PackageJson))
  (r : FindResult Error PackageJson) :
  returnsOn fs_realpathSync results -> In r results ->
  getDistinctKeyForFindResult_throwing fs_realpathSync r
  = inr (getDistinctKeyForFindResult r).
Proof.
  intros Hreturns Hin.
  unfold getDistinctKeyForFindResult_throwing, getDistinctKeyForFindResult.
  destruct (fr_error r) as [e |] eqn:E; [reflexivity |].
  destruct (fr_packageJson r) as [p |] eqn:Ep; [| reflexivity].
  now rewrite (Hreturns r p Hin E Ep).
Qed.

Lemma distinct_throwing_from_returning
  (fs_realpathSync : string -> Failure + string)
  (results : list (FindResult Error PackageJson)) :
  returnsOn fs_realpathSync results ->
  forall seen,
    distinct_throwing_from
      (getDistinctKeyForFindResult_throwing fs_realpathSync) seen results
    = mkStream (distinct_from getDistinctKeyForFindResult seen results)
        Completed.
Proof.
  induction results as [| r results IH]; intros Hreturns seen; simpl;
    [reflexivity |].
  rewrite (@key_when_returning fs_realpathSync (r :: results) r Hreturns
             (or_introl eq_refl)).
  assert (Hrest : returnsOn fs_realpathSync results).
  { intros r' p Hin. apply Hreturns. now right. }
  destruct (existsb _ seen); rewrite (IH Hrest); reflexivity.
Qed.

Lemma distinct_throwing_from_thrown
  (fs_realpathSync : string -> Failure + string)
  (before after : list (FindResult Error PackageJson))
  (r : FindResult Error PackageJson) (thrown : Failure) :
  returnsOn fs_realpathSync before ->
  getDistinctKeyForFindResult_throwing fs_realpathSync r = inl thrown ->
  forall seen,
    distinct_throwing_from
      (getDistinctKeyForFindResult_throwing fs_realpathSync) seen
      (before ++ r :: after)
    = mkStream (distinct_from getDistinctKeyForFindResult seen before)
        (Failed thrown).
Proof.
  intros Hreturns Hthrown.
  induction before as [| r' before IH]; intros seen; simpl.
  - now rewrite Hthrown.
  - rewrite (@key_when_returning fs_realpathSync (r' :: before) r' Hreturns
               (or_introl eq_refl)).
    assert (Hrest : returnsOn fs_realpathSync before).
    { intros r0 p Hin. apply Hreturns. now right. }
    destruct (existsb _ seen); rewrite (IH Hrest); reflexivity.
Qed.

(** X8.  [packageJson$] with an [fs.realpathSync] that may throw.  The key
    of a result with an error is its message, and the file system is not
    asked.  When [fs.realpathSync] returns on every package.json found,
    [distinct] completes with the results the run works with, and the
    caller's [packageJson$] is the one of the run.  When it throws on the
    package.json of a result, [distinct] hands on the distinct results
    found before that one and ends with the error thrown: the caller's
    [packageJson$] delivers their package.json files and fails, and the
    results that arrive afterwards are lost, whatever they are. *)
Theorem a_throwing_realpathSync_ends_packageJson_obs
  (fs_realpathSync : string -> Failure + string) :
  (forall (r : FindResult Error PackageJson) (e : Error),
      fr_error r = Some e ->
      getDistinctKeyForFindResult_throwing fs_realpathSync r
      = inr (KeyString (message e)))
  /\ (forall results : list (FindResult Error PackageJson),
        returnsOn fs_realpathSync results ->
        distinct_throwing
          (getDistinctKeyForFindResult_throwing fs_realpathSync) results
        = mkStream (distinct getDistinctKeyForFindResult results) Completed)
  /\ (returnsOn fs_realpathSync
        (merge discoveryOrder
           (map createPackageJsonAtPath_obs (get_plugins_paths start)
              ++ map createPackageJsonsInDirectory_obs
                   (get_plugins_scanDirs start))) ->
      packageJson_obs_throwing fs_realpathSync
        (merge discoveryOrder
           (map createPackageJsonAtPath_obs (get_plugins_paths start)
              ++ map createPackageJsonsInDirectory_obs
                   (get_plugins_scanDirs start)))
      = packageJson_obs (delivered run))
  /\ (forall (before after : list (FindResult Error PackageJson))
             (r : FindResult Error PackageJson) (p : PackageJson)
             (thrown : Failure),
        returnsOn fs_realpathSync before ->
        fr_error r = None -> fr_packageJson r = Some p ->
        fs_realpathSync (directoryPath p) = inl thrown ->
        distinct_throwing
          (getDistinctKeyForFindResult_throwing fs_realpathSync)
          (before ++ r :: after)
        = mkStream (distinct getDistinctKeyForFindResult before)
            (Failed thrown)
        /\ packageJson_obs_throwing fs_realpathSync (before ++ r :: after)
           = mkStream
               (flat_map (fun r => arrayOf (fr_packageJson r))
                  (distinct getDistinctKeyForFindResult before))
               (Failed thrown)
        /\ packageJson_obs_throwing fs_realpathSync (before ++ r :: after)
           = packageJson_obs_throwing fs_realpathSync (before ++ [r])).
Proof.
  assert (Hthrown :
    forall (before after : list (FindResult Error PackageJson))
           (r : FindResult Error PackageJson) (p : PackageJson)
           (thrown : Failure),
      returnsOn fs_realpathSync before ->
      fr_error r = None -> fr_packageJson r = Some p ->
      fs_realpathSync (directoryPath p) = inl thrown ->
      distinct_throwing
        (getDistinctKeyForFindResult_throwing fs_realpathSync)
        (before ++ r :: after)
      = mkStream (distinct getDistinctKeyForFindResult before)
          (Failed thrown)).
  { intros before after r p thrown Hreturns He Hp Hfs.
    apply distinct_throwing_from_thrown; [exact Hreturns |].
    unfold getDistinctKeyForFindResult_throwing. now rewrite He, Hp, Hfs. }
  split; [| split; [| split]].
  - intros r e He. unfold getDistinctKeyForFindResult_throwing.
    now rewrite He.
  - intros results Hreturns.
    now apply distinct_throwing_from_returning.
  - intros Hreturns. destruct discovery_channels_run as (-> & _).
    unfold packageJson_obs_throwing, distinct_throwing.
    now rewrite (distinct_throwing_from_returning Hreturns).
  - intros before after r p thrown Hreturns He Hp Hfs.
    unfold packageJson_obs_throwing.
    rewrite (Hthrown before after r p thrown Hreturns He Hp Hfs).
    rewrite (Hthrown before [] r p thrown Hreturns He Hp Hfs).
    repeat split.
Qed.

End PipelineFacts.

(* ================================================================== *)
(** ** The claims on the concrete installation *)

Section OnTheInstallation.

Local Existing Instance Demo.collaborators.

Lemma demo_extension_contributes (spec : Demo.Spec) (c : Demo.Service) :
  Demo.contributed spec (fst (Demo.extendService spec c tt)) = true.
Proof. unfold Demo.contributed. simpl. now rewrite String.eqb_refl. Qed.

Lemma demo_extension_keeps (spec other : Demo.Spec) (c : Demo.Service) :
  Demo.contributed other c = true ->
  Demo.contributed other (fst (Demo.extendService spec c tt)) = true.
Proof.
  unfold Demo.contributed. simpl. intros ->. apply orb_true_r.
Qed.

Lemma demo_filter_out (id other : string) (ids : list string) :
  existsb (String.eqb other) ids = false \/ other = id ->
  existsb (String.eqb other)
    (filter (fun x => negb (String.eqb x id)) ids) = false.
Proof.
  intros H. induction ids as [| x ids IH]; simpl; [reflexivity |].
  destruct (String.eqb x id) eqn:E; simpl.
  - apply IH. destruct H as [H | H]; [| now right].
    simpl in H. apply orb_false_iff in H. now left.
  - destruct H as [H | H].
    + simpl in H. apply orb_false_iff in H. destruct H as [-> H].
      simpl. apply IH. now left.
    + subst other. rewrite String.eqb_sym, E. simpl. apply IH. now right.
Qed.

Lemma demo_disabling_removes (spec : Demo.Spec) (c : Demo.Service) :
  Demo.contributed spec (Demo.disableService spec c) = false.
Proof. unfold Demo.contributed. simpl. apply demo_filter_out. now right. Qed.

Lemma demo_disabling_keeps_out (spec other : Demo.Spec) (c : Demo.Service) :
  Demo.contributed other c = false ->
  Demo.contributed other (Demo.disableService spec c) = false.
Proof.
  unfold Demo.contributed. simpl. intros H. apply demo_filter_out. now left.
Qed.

Lemma demo_predicates_exclusive (e : Demo.Fault) :
  Demo.invalidDirectory (Some e) && Demo.invalidPack (Some e) = false.
Proof. now destruct e as [[] text]. Qed.

(** C1, the claim as the specification states it, on the packs
    [/vis/tagcloud] and [/vis/timelion], each with two specs of one
    identifier: the spec at [/plugins/timelion] is collected and conflicts,
    and the error thrown names neither its identifier nor its path. *)
Lemma conflict_message_leaves_out_the_second_conflict :
  let allSpecs := collectedSpecs [] tt (Some Demo.clashing) in
  let thrown :=
    conflictMessage "tagcloud" [Demo.tagcloud; Demo.tagcloud'] in
  allSpecs = [Demo.tagcloud; Demo.tagcloud'; Demo.timelion; Demo.timelion']
  /\ conflicting allSpecs Demo.timelion = true
  /\ spec_obs (delivered (Demo.run [] [] Demo.clashing))
     = mkStream [] (Failed (ThrownError thrown))
  /\ Js.includes thrown (getId Demo.timelion) = false
  /\ Js.includes thrown (getPath Demo.timelion) = false
  /\ ~ namesEveryConflictingSpec allSpecs thrown.
Proof.
  cbv zeta. repeat apply conj; try (vm_compute; reflexivity).
  intros H.
  destruct (H Demo.timelion) as [_ Hpath].
  - vm_compute. auto.
  - vm_compute. reflexivity.
  - vm_compute in Hpath. discriminate.
Qed.

(** C1 on the same packs: the run fails for [tagcloud], before any call. *)
Lemma conflict_fails_before_any_extension_witness :
  collectedSpecs [] tt (Some Demo.clashing)
  = [] ++ Demo.tagcloud :: [] ++ Demo.tagcloud'
       :: [Demo.timelion; Demo.timelion']
  /\ getId Demo.tagcloud = getId Demo.tagcloud'
  /\ exists id : string,
       firstConflict (collectedSpecs [] tt (Some Demo.clashing)) = Some id
       /\ log (world (Demo.run [] [] Demo.clashing)) = []
       /\ shared (world (Demo.run [] [] Demo.clashing)) = Demo.clashing
       /\ Js.includes
            (conflictMessage id
               (specsWithId id (collectedSpecs [] tt (Some Demo.clashing))))
            (getPath Demo.tagcloud') = true.
Proof.
  split; [reflexivity | split; [reflexivity |]].
  destruct (@conflict_fails_before_any_extension Demo.collaborators
              [] [] tt (Some Demo.clashing)
              [] [] [Demo.timelion; Demo.timelion']
              Demo.tagcloud Demo.tagcloud' eq_refl eq_refl)
    as (id & Hfirst & _ & _ & _ & _ & _ & Hlog & Hshared & _ & Hpaths).
  exists id. repeat split; try assumption.
  apply Hpaths.
  - vm_compute. auto.
  - vm_compute in Hfirst. now inversion Hfirst.
Defined.

(** C2 on the installation with [core], [addon], [legacy] and [off]:
    [legacy] settles first, and every spec is classified on the
    configuration that carries the four schemas. *)
Lemma barriers_order_extension_classification_and_rollback_witness :
  let r := Demo.run [1; 0; 2] [2; 1; 0] Demo.installed in
  map (fun e => (routine e, getId (callee e), Demo.schemas (found e)))
    (log (world r))
  = [(ExtendConfigService, "legacy", []);
     (ExtendConfigService, "addon", ["legacy"]);
     (ExtendConfigService, "core", ["addon"; "legacy"]);
     (ExtendConfigService, "off", ["core"; "addon"; "legacy"]);
     (IsVersionCompatible, "legacy", ["off"; "core"; "addon"; "legacy"]);
     (IsVersionCompatible, "addon", ["off"; "core"; "addon"; "legacy"]);
     (IsEnabled, "addon", ["off"; "core"; "addon"; "legacy"]);
     (IsVersionCompatible, "core", ["off"; "core"; "addon"; "legacy"]);
     (IsEnabled, "core", ["off"; "core"; "addon"; "legacy"]);
     (IsVersionCompatible, "off", ["off"; "core"; "addon"; "legacy"]);
     (IsEnabled, "off", ["off"; "core"; "addon"; "legacy"]);
     (DisableConfigExtension, "legacy", ["off"; "core"; "addon"; "legacy"]);
     (DisableConfigExtension, "off", ["off"; "core"; "addon"])]
  /\ Demo.contributed Demo.addon
       (mergedConfig [1; 0; 2] [2; 1; 0] tt (Some Demo.installed)) = true
  /\ Demo.contributed Demo.legacy (shared (world r)) = false
  /\ Demo.contributed Demo.off (shared (world r)) = false.
Proof.
  cbv zeta.
  destruct (@barriers_order_extension_classification_and_rollback
              Demo.collaborators [1; 0; 2] [2; 1; 0] tt (Some Demo.installed))
    as (Hlog & _ & _ & _ & _ & _ & _ & _ & Hmerged & Hleft).
  specialize (Hmerged Demo.contributed
                demo_extension_contributes demo_extension_keeps).
  specialize (Hleft Demo.contributed
                demo_disabling_removes demo_disabling_keeps_out).
  split; [| split; [| split]].
  - unfold Demo.run. rewrite Hlog. vm_compute. reflexivity.
  - apply Hmerged. vm_compute. auto.
  - apply Hleft. vm_compute. auto.
  - apply Hleft. vm_compute. auto.
Defined.

(** C5 on the failing input, a configuration service without paths and
    without scan directories, and on the installation, whose configuration
    service is not a stream. *)
Lemma extendedConfig_obs_fails_when_no_spec_is_found_witness :
  Demo.paths Demo.bare = []
  /\ Demo.scanDirs Demo.bare = []
  /\ map Demo.createPack [] = []
  /\ extendedConfig_obs (delivered (Demo.run [] [] Demo.bare))
     = mkStream [] (Failed EmptyError)
  /\ spec_obs (delivered (Demo.run [] [] Demo.bare)) = mkStream [] Completed
  /\ world (Demo.run [] [] Demo.bare) = mkWorld Demo.bare []
  /\ extendedConfig_obs (delivered (Demo.run [] [] Demo.installed))
     = mkStream [] (Failed TypeError).
Proof.
  split; [reflexivity | split; [reflexivity | split; [reflexivity |]]].
  destruct (@extendedConfig_obs_fails_when_no_spec_is_found
              Demo.collaborators [] [] tt (Some Demo.bare))
    as [Hempty _].
  destruct (Hempty eq_refl eq_refl eq_refl)
    as (Hconfig & _ & _ & _ & _ & _ & _ & Hspec & _ & _ & Hworld).
  destruct (@extendedConfig_obs_fails_when_no_spec_is_found
              Demo.collaborators [] [] tt (Some Demo.installed))
    as [_ Hstream].
  split; [exact Hconfig | split; [exact Hspec | split; [exact Hworld |]]].
  apply Hstream; [vm_compute; discriminate | reflexivity].
Defined.



(** C8 on the installation: the missing path gives an invalid-pack error,
    the missing directory an invalid-directory error. *)
Lemma every_error_reaches_exactly_one_channel_witness :
  let r := Demo.run [] [] Demo.installed in
  invalidDirectoryError_obs (delivered r)
  = mkStream [Some Demo.brokenDir] Completed
  /\ invalidPackError_obs (delivered r)
     = mkStream [Some Demo.brokenPack] Completed
  /\ otherError_obs (delivered r) = mkStream [] Completed
  /\ Nat.b2n (isInvalidDirectoryError (Some Demo.brokenDisk))
     + Nat.b2n (isInvalidPackError (Some Demo.brokenDisk))
     + Nat.b2n (isUnhandledError (Some Demo.brokenDisk)) = 1.
Proof.
  cbv zeta.
  destruct (@every_error_reaches_exactly_one_channel
              Demo.collaborators [] [] tt (Some Demo.installed))
    as (Hdir & Hpack & Hother & _ & _ & Hone & _).
  unfold Demo.run. rewrite Hdir, Hpack, Hother.
  split; [reflexivity | split; [reflexivity | split; [reflexivity |]]].
  apply (Hone demo_predicates_exclusive Demo.brokenDisk).
Defined.

(** C10 on the installation: the packs of [/plugins/core] and
    [/plugins/bundle] carry no error and reach no error channel. *)
Lemma a_result_without_error_reaches_no_error_channel_witness :
  Demo.invalidDirectory None = false
  /\ Demo.invalidPack None = false
  /\ errorIf isInvalidDirectoryError
       (mkPackResult None (Some (mkPack [Demo.core]))) = []
  /\ errorIf isInvalidPackError
       (mkPackResult None (Some (mkPack [Demo.core]))) = []
  /\ errorIf isUnhandledError
       (mkPackResult None (Some (mkPack [Demo.core]))) = []
  /\ ~ In None
       (emitted
          (otherError_obs (delivered (Demo.run [] [] Demo.installed)))).
Proof.
  split; [reflexivity | split; [reflexivity |]].
  destruct (@a_result_without_error_reaches_no_error_channel
              Demo.collaborators [] [] tt (Some Demo.installed))
    as (_ & Hother & Hnone & Hdir & Hpack).
  destruct (Hdir eq_refl) as [Hdir' _].
  destruct (Hpack eq_refl) as [Hpack' _].
  split; [now apply Hdir' |].
  split; [now apply Hpack' |].
  split; [now apply Hother | exact Hnone].
Defined.

(** C9 on the pack of [/plugins/core] followed by the result of a broken
    disk. *)
Lemma a_result_without_pack_adds_no_specs_witness :
  let broken := mkPackResult (Some Demo.brokenDisk) None in
  let corePack := mkPackResult None (Some (mkPack [Demo.core])) in
  pr_pack broken = None
  /\ flat_map specsOf ([corePack] ++ broken :: []) = [Demo.core]
  /\ subscribe
       (extendConfig_shared [] tt SharedConfig ([corePack] ++ broken :: [])
          |> map_ (@deliver Demo.collaborators))%rx
       (mkWorld Demo.bare [])
     = subscribe
         (extendConfig_shared [] tt SharedConfig ([corePack] ++ [])
            |> map_ (@deliver Demo.collaborators))%rx
         (mkWorld Demo.bare []).
Proof.
  cbv zeta. split; [reflexivity |].
  destruct (@a_result_without_pack_adds_no_specs Demo.collaborators [] tt
              (mkPackResult (Some Demo.brokenDisk) None)
              [mkPackResult None (Some (mkPack [Demo.core]))] []
              SharedConfig (@mkWorld Demo.collaborators Demo.bare []) eq_refl)
    as (_ & Hspecs & _ & Hrun).
  split; [exact (eq_trans Hspecs eq_refl) | exact Hrun].
Defined.

End OnTheInstallation.

(* ================================================================== *)
(** ** paginated_selectable_list.js *)

Section ListFacts.

Variables Value Url Event Outcome : Type.
Variable get : Value -> string -> Value.
Variable compareAscending : Value -> Value -> comparison.

Local Notation "'Bindings'" :=
  (PaginatedSelectableList.Bindings Value Url Event Outcome).
Local Notation "'Scope'" :=
  (PaginatedSelectableList.Scope Value Url Event Outcome).
Local Notation "'controller'" :=
  (@PaginatedSelectableList.controller Value Url Event Outcome
     compareAscending).
Local Notation "'sortBy'" :=
  (PaginatedSelectableList.sortBy compareAscending).
Local Notation "'insertBy'" :=
  (PaginatedSelectableList.insertBy compareAscending).
Local Notation "'sortHits'" :=
  (@PaginatedSelectableList.sortHits Value Url Event Outcome get
     compareAscending).
Local Notation "'accessor'" :=
  (@PaginatedSelectableList.accessor Value Url Event Outcome get).
Local Notation "'ascending'" :=
  (PaginatedSelectableList.ascending compareAscending).

Import PaginatedSelectableList (b_perPage, b_list, b_listProperty,
  b_userMakeUrl, b_userOnSelect, b_disableAutoFocus, mkBindings, mkScope,
  perPage, listProperty, userMakeUrl, userOnSelect, disableAutoFocus, hits,
  hitCount, isAscending, makeUrl, onSelect, given).

Lemma insertBy_Permutation (key : Value -> Value) (x : Value)
  (sorted : list Value) :
  Permutation (insertBy key x sorted) (x :: sorted).
Proof.
  induction sorted as [| y rest IH]; simpl; [reflexivity |].
  destruct (compareAscending (key x) (key y)); try reflexivity;
    (rewrite IH; apply perm_swap).
Qed.

Lemma sortBy_from_Permutation (key : Value -> Value)
  (collection : list Value) :
  forall sorted,
    Permutation
      (fold_left (fun sorted x => insertBy key x sorted) collection sorted)
      (sorted ++ collection).
Proof.
  induction collection as [| x rest IH]; intros sorted; simpl.
  - now rewrite app_nil_r.
  - rewrite IH, insertBy_Permutation. apply Permutation_middle.
Qed.

(** [_.sortBy] hands back the values it was given, each once. *)
Lemma sortBy_Permutation (collection : list Value)
  (iteratee : option (Value -> Value)) :
  Permutation (sortBy collection iteratee) collection.
Proof.
  unfold PaginatedSelectableList.sortBy. now rewrite sortBy_from_Permutation.
Qed.

(** X9.  The controller throws when neither [makeUrl] nor [onSelect] is
    bound, and when both are; it accepts every other scope.  On a scope it
    accepts exactly one of the two handlers can be called: the other one
    is a [TypeError] on every hit. *)
Theorem controller_wants_exactly_one_handler (b : Bindings) :
  (b_userMakeUrl b = None -> b_userOnSelect b = None ->
   controller b
   = inl (ThrownError
     "paginatedSelectableList directive expects a makeUrl or onSelect function"))
  /\ (b_userMakeUrl b <> None -> b_userOnSelect b <> None ->
      controller b
      = inl (ThrownError
        "paginatedSelectableList directive expects a makeUrl or onSelect attribute but not both"))
  /\ ((exists scope, controller b = inr scope)
      <-> given (b_userMakeUrl b) = negb (given (b_userOnSelect b)))
  /\ (forall scope,
        controller b = inr scope ->
        (exists f,
            b_userMakeUrl b = Some f
            /\ (forall hit, makeUrl scope hit = inr (f hit))
            /\ (forall hit event, onSelect scope hit event = inl TypeError))
        \/ (exists g,
              b_userOnSelect b = Some g
              /\ (forall hit event, onSelect scope hit event = inr (g hit event))
              /\ (forall hit, makeUrl scope hit = inl TypeError))).
Proof.
  unfold PaginatedSelectableList.controller,
    PaginatedSelectableList.throwError, makeUrl, onSelect.
  destruct (b_userMakeUrl b) as [f |], (b_userOnSelect b) as [g |]; simpl.
  - split; [discriminate |]. split; [reflexivity |].
    split; [split; [intros [scope E] |]; discriminate | discriminate].
  - split; [discriminate |]. split; [intros _ H; now contradiction H |].
    split; [split; [reflexivity | eauto] |].
    intros scope E. inversion E; subst. left. exists f. now repeat split.
  - split; [discriminate |]. split; [intros H; now contradiction H |].
    split; [split; [reflexivity | eauto] |].
    intros scope E. inversion E; subst. right. exists g. now repeat split.
  - split; [reflexivity |]. split; [intros H; now contradiction H |].
    split; [split; [intros [scope E] |]; discriminate | discriminate].
Qed.

(** X10.  On a scope the controller accepts, the list and the hits are the
    bound list sorted, the hit count is its length, the direction is
    ascending, and the page size is the bound one, or 10 when that is
    missing or 0, so it is never 0.  That first sort runs before
    [$scope.accessor] is assigned: it orders the values by themselves,
    whatever [listProperty] is. *)
Theorem controller_sorts_before_the_accessor_is_assigned
  (b : Bindings) (scope : Scope) :
  controller b = inr scope ->
  hits scope = sortBy (b_list b) None
  /\ PaginatedSelectableList.list scope = hits scope
  /\ Permutation (hits scope) (b_list b)
  /\ hitCount scope = length (b_list b)
  /\ isAscending scope = true
  /\ 0 < perPage scope
  /\ perPage scope
     = match b_perPage b with Some (S n) => S n | _ => 10 end
  /\ (forall (prop : option string) (scope' : Scope),
        controller
          (mkBindings (b_perPage b) (b_list b) prop (b_userMakeUrl b)
             (b_userOnSelect b) (b_disableAutoFocus b))
        = inr scope' ->
        hits scope' = hits scope).
Proof.
  unfold PaginatedSelectableList.controller. simpl.
  destruct (negb (given (b_userMakeUrl b)) && negb (given (b_userOnSelect b)));
    [discriminate |].
  destruct (given (b_userMakeUrl b) && given (b_userOnSelect b));
    [discriminate |].
  intros E. inversion E; subst. simpl. repeat apply conj; try reflexivity.
  - apply sortBy_Permutation.
  - apply Permutation_length, sortBy_Permutation.
  - destruct (b_perPage b) as [[| n] |]; simpl; lia.
  - now destruct (b_perPage b) as [[| n] |].
  - intros prop scope' E'. now inversion E'.
Qed.

(** X11.  [sortHits] flips the direction at every call and leaves the list,
    the hit count and the page size as they are, also when it is given
    another number of hits.  What it shows is the hits it was given, each
    once; called twice on the same hits it shows them in one direction and
    then in the exact reverse.  The first call after the controller shows
    the descending order. *)
Theorem sortHits_flips_the_direction
  (scope : Scope) (shown : list Value) :
  let once := sortHits scope shown in
  let twice := sortHits once shown in
  isAscending once = negb (isAscending scope)
  /\ isAscending twice = isAscending scope
  /\ Permutation (hits once) shown
  /\ length (hits once) = length shown
  /\ hits twice = rev (hits once)
  /\ hitCount once = hitCount scope
  /\ PaginatedSelectableList.list once = PaginatedSelectableList.list scope
  /\ perPage once = perPage scope
  /\ (forall b, controller b = inr scope ->
                hits once = rev (sortBy shown (Some (accessor scope)))).
Proof.
  cbv zeta. unfold PaginatedSelectableList.sortHits. simpl.
  change (PaginatedSelectableList.accessor get
            (mkScope (perPage scope) (PaginatedSelectableList.list scope)
               (listProperty scope) (userMakeUrl scope) (userOnSelect scope)
               (disableAutoFocus scope)
               (if negb (isAscending scope)
                then sortBy shown (Some (accessor scope))
                else rev (sortBy shown (Some (accessor scope))))
               (hitCount scope) (negb (isAscending scope))))
    with (accessor scope).
  assert (Hperm : Permutation
                    (if negb (isAscending scope)
                     then sortBy shown (Some (accessor scope))
                     else rev (sortBy shown (Some (accessor scope))))
                    shown).
  { destruct (isAscending scope); simpl.
    - rewrite <- Permutation_rev. apply sortBy_Permutation.
    - apply sortBy_Permutation. }
  repeat apply conj; try reflexivity.
  - apply negb_involutive.
  - exact Hperm.
  - now apply Permutation_length.
  - destruct (isAscending scope); simpl; [now rewrite rev_involutive |].
    reflexivity.
  - intros b E. unfold PaginatedSelectableList.controller in E.
    destruct (negb _ && negb _); [discriminate |].
    destruct (given _ && given _); [discriminate |].
    inversion E; subst. reflexivity.
Qed.

(** [accessor] without a property to read. *)
Lemma accessor_without_property (scope : Scope) (val : Value) :
  listProperty scope = None \/ listProperty scope = Some "" ->
  accessor scope val = val.
Proof.
  unfold PaginatedSelectableList.accessor. now intros [-> | ->].
Qed.

Section Ordered.

(** lodash's comparison is consistent: [a] comes before [b] exactly when
    [b] comes after [a]. *)
Hypothesis compareAscending_antisym :
  forall a b, compareAscending a b = CompOpp (compareAscending b a).

Lemma insertBy_Sorted (key : Value -> Value) (x : Value)
  (sorted : list Value) :
  Sorted (ascending key) sorted ->
  Sorted (ascending key) (insertBy key x sorted).
Proof.
  induction sorted as [| y rest IH]; intros Hsorted; simpl.
  - repeat constructor.
  - inversion Hsorted as [| ? ? Hrest Hhd]; subst.
    destruct (compareAscending (key x) (key y)) eqn:E.
    + constructor; [now apply IH |].
      destruct rest as [| z rest']; simpl.
      * constructor. unfold PaginatedSelectableList.ascending.
        rewrite compareAscending_antisym, E. discriminate.
      * destruct (compareAscending (key x) (key z)).
        -- inversion Hhd; now constructor.
        -- constructor. unfold PaginatedSelectableList.ascending.
           rewrite compareAscending_antisym, E. discriminate.
        -- inversion Hhd; now constructor.
    + constructor; [exact Hsorted |]. constructor.
      unfold PaginatedSelectableList.ascending. rewrite E. discriminate.
    + constructor; [now apply IH |].
      destruct rest as [| z rest']; simpl.
      * constructor. unfold PaginatedSelectableList.ascending.
        rewrite compareAscending_antisym, E. discriminate.
      * destruct (compareAscending (key x) (key z)).
        -- inversion Hhd; now constructor.
        -- constructor. unfold PaginatedSelectableList.ascending.
           rewrite compareAscending_antisym, E. discriminate.
        -- inversion Hhd; now constructor.
Qed.

Lemma sortBy_Sorted (collection : list Value)
  (iteratee : option (Value -> Value)) :
  Sorted
    (ascending (match iteratee with Some f => f | None => fun v => v end))
    (sortBy collection iteratee).
Proof.
  unfold PaginatedSelectableList.sortBy.
  generalize (match iteratee with Some f => f | None => fun v : Value => v end)
    as key. intros key.
  assert (H : forall sorted,
             Sorted (ascending key) sorted ->
             Sorted (ascending key)
               (fold_left (fun sorted x => insertBy key x sorted)
                  collection sorted)).
  { induction collection as [| x rest IH]; intros sorted Hs; simpl;
      [exact Hs |].
    apply IH. now apply insertBy_Sorted. }
  apply H. constructor.
Qed.

End Ordered.

(** X12.  When lodash's comparison is consistent, the hits [sortHits] shows
    are in order of what [$scope.accessor] reads from them: of the
    property [listProperty] names, or of the hits themselves when it is
    missing or empty; in ascending order when the direction is ascending
    after the call, in descending order otherwise. *)
Theorem sortHits_orders_the_hits_by_the_accessor
  (scope : Scope) (shown : list Value) :
  (forall a b, compareAscending a b = CompOpp (compareAscending b a)) ->
  let after := sortHits scope shown in
  (isAscending after = true ->
   Sorted (ascending (accessor scope)) (hits after))
  /\ (isAscending after = false ->
      Sorted (ascending (accessor scope)) (rev (hits after)))
  /\ (forall prop val,
        listProperty scope = Some prop -> prop <> "" ->
        accessor scope val = get val prop)
  /\ (forall val,
        listProperty scope = None \/ listProperty scope = Some "" ->
        accessor scope val = val).
Proof.
  intros Hcompare. cbv zeta.
  unfold PaginatedSelectableList.sortHits. simpl.
  repeat apply conj.
  - intros ->. apply (sortBy_Sorted Hcompare shown (Some (accessor scope))).
  - intros ->. rewrite rev_involutive.
    apply (sortBy_Sorted Hcompare shown (Some (accessor scope))).
  - intros prop val E Hprop. unfold PaginatedSelectableList.accessor.
    rewrite E. apply String.eqb_neq in Hprop. now rewrite Hprop.
  - intros val. apply accessor_without_property.
Qed.

End ListFacts.

(* ================================================================== *)
(** ** The further properties on concrete inputs *)

Section MoreOnTheInstallation.

Local Existing Instance Demo.collaborators.

(** X3 on two specs: without the barrier the calls alternate, with it the
    extensions come first. *)
Lemma bufferAllResults_holds_back_until_the_source_ends_witness :
  let source :=
    (@from (@World Demo.collaborators) _ [Demo.core; Demo.legacy]
       |> map_ (extend tt))%rx in
  let ask := fun e : Extended => call IsEnabled (e_spec e) in
  let calls := fun w : World =>
    map (fun e => (routine e, getId (callee e))) (log w) in
  calls (snd (subscribe (source |> do_ ask)%rx (mkWorld Demo.bare [])))
  = [(ExtendConfigService, "core"); (IsEnabled, "core");
     (ExtendConfigService, "legacy"); (IsEnabled, "legacy")]
  /\ calls (snd (subscribe (bufferAllResults source |> do_ ask)%rx
                   (mkWorld Demo.bare [])))
     = [(ExtendConfigService, "core"); (ExtendConfigService, "legacy");
        (IsEnabled, "core"); (IsEnabled, "legacy")].
Proof.
  cbv zeta. split; [vm_compute; reflexivity |].
  destruct (@bufferAllResults_holds_back_until_the_source_ends
              Demo.collaborators _ _
              (@from (@World Demo.collaborators) _ [Demo.core; Demo.legacy]
                 |> map_ (@extend Demo.collaborators tt))%rx
              _ _
              (fun e : @Extended Demo.collaborators =>
                 call IsEnabled (e_spec e))
              (@mkWorld Demo.collaborators Demo.bare [])
              (map_Staged (@extend Demo.collaborators tt)
                 (from_Staged (W := @World Demo.collaborators)
                    [Demo.core; Demo.legacy])))
    as [Hbarrier _].
  rewrite Hbarrier. vm_compute. reflexivity.
Defined.

(** X4 on an error whose message is the path of the package.json found
    after it. *)
Lemma a_message_and_a_path_can_collide_witness :
  let odd := Demo.mkFault Demo.Unknown "/plugins/core" in
  let found := mkFindResult 0 (Some odd) (@None string) in
  let later := mkFindResult 1 (@None Demo.Fault) (Some "/plugins/core") in
  In found [found]
  /\ message odd = realpathSync (directoryPath "/plugins/core")
  /\ distinct getDistinctKeyForFindResult ([found] ++ [later])
     = distinct getDistinctKeyForFindResult [found].
Proof.
  cbv zeta. split; [now left | split; [reflexivity |]].
  destruct (@a_message_and_a_path_can_collide Demo.collaborators
              [mkFindResult 0
                 (Some (Demo.mkFault Demo.Unknown "/plugins/core")) None]
              (mkFindResult 0
                 (Some (Demo.mkFault Demo.Unknown "/plugins/core")) None)
              (mkFindResult 1 None (Some "/plugins/core"))
              (Demo.mkFault Demo.Unknown "/plugins/core") "/plugins/core"
              (or_introl eq_refl) eq_refl)
    as [Hdrop _].
  exact (Hdrop eq_refl eq_refl eq_refl).
Defined.

(** X8 on the installation, with [/plugins/bundle] vanished: the caller is
    handed [/plugins/core] once and the error; the missing scan directory,
    which arrives later, is never reported. *)
Lemma a_throwing_realpathSync_ends_packageJson_obs_witness :
  let arrived :=
    merge []
      (map createPackageJsonAtPath_obs (get_plugins_paths Demo.installed)
         ++ map createPackageJsonsInDirectory_obs
              (get_plugins_scanDirs Demo.installed)) in
  map getDistinctKeyForFindResult arrived
  = [KeyString "/plugins/core"; KeyString "no package.json";
     KeyString "/plugins/core"; KeyString "/plugins/bundle";
     KeyString "no such directory"]
  /\ packageJson_obs_throwing Demo.vanished arrived
     = mkStream ["/plugins/core"] (Failed (ThrownError "ENOENT"))
  /\ packageJson_obs_throwing (fun path => inr path) arrived
     = mkStream ["/plugins/core"; "/plugins/bundle"] Completed.
Proof.
  cbv zeta. split; [vm_compute; reflexivity |].
  destruct (@a_throwing_realpathSync_ends_packageJson_obs
              Demo.collaborators [] [] tt (Some Demo.installed)
              Demo.vanished) as (_ & _ & _ & Hthrown).
  destruct (@a_throwing_realpathSync_ends_packageJson_obs
              Demo.collaborators [] [] tt (Some Demo.installed)
              (fun path => inr path)) as (_ & _ & Hsame & _).
  split.
  - refine (proj1 (proj2
      (Hthrown
         [mkFindResult 1 None (Some "/plugins/core");
          mkFindResult 0 (Some Demo.brokenPack) None;
          mkFindResult 2 None (Some "/plugins/core")]
         [mkFindResult 4 (Some Demo.brokenDir) None]
         (mkFindResult 3 None (Some "/plugins/bundle"))
         "/plugins/bundle" (ThrownError "ENOENT") _ eq_refl eq_refl eq_refl))).
    intros r p Hin He Hp.
    destruct Hin as [<- | [<- | [<- | []]]];
      try discriminate; inversion Hp; subst; reflexivity.
  - refine (eq_trans (Hsame _) _); [| vm_compute; reflexivity].
    intros r p _ _ _. reflexivity.
Defined.

End MoreOnTheInstallation.

Section OnNumbers.

(** A list of numbers, read by their last digit when [listProperty] is
    bound. *)
Let lastDigit (n : nat) (prop : string) : nat := n mod 10.

(** X10 on the list 23, 11, 32 bound with a [listProperty]: the
    controller orders it by the numbers themselves. *)
Lemma controller_sorts_before_the_accessor_is_assigned_witness :
  let b :=
    PaginatedSelectableList.mkBindings None [23; 11; 32] (Some "digit")
      (Some (fun n : nat => n)) (@None (nat -> unit -> unit)) false in
  let scope :=
    PaginatedSelectableList.mkScope 10 [11; 23; 32] (Some "digit")
      (Some (fun n : nat => n)) (@None (nat -> unit -> unit)) false
      [11; 23; 32] 3 true in
  PaginatedSelectableList.controller Nat.compare b = inr scope
  /\ PaginatedSelectableList.hits scope
     = PaginatedSelectableList.sortBy Nat.compare [23; 11; 32] None
  /\ PaginatedSelectableList.hitCount scope = 3
  /\ 0 < PaginatedSelectableList.perPage scope.
Proof.
  cbv zeta. split; [reflexivity |].
  destruct (@controller_sorts_before_the_accessor_is_assigned
              nat nat unit unit Nat.compare
              (PaginatedSelectableList.mkBindings None [23; 11; 32]
                 (Some "digit") (Some (fun n : nat => n)) None false)
              (PaginatedSelectableList.mkScope 10 [11; 23; 32] (Some "digit")
                 (Some (fun n : nat => n)) None false [11; 23; 32] 3 true)
              eq_refl)
    as (Hhits & _ & _ & Hcount & _ & Hpage & _).
  split; [exact Hhits | split; [exact Hcount | exact Hpage]].
Defined.

(** X12 on the same scope: the first [sortHits] shows 23, 32, 11, the
    descending order of the last digits. *)
Lemma sortHits_orders_the_hits_by_the_accessor_witness :
  let scope :=
    PaginatedSelectableList.mkScope 10 [11; 23; 32] (Some "digit")
      (Some (fun n : nat => n)) (@None (nat -> unit -> unit)) false
      [11; 23; 32] 3 true in
  let after :=
    PaginatedSelectableList.sortHits lastDigit Nat.compare scope
      [11; 23; 32] in
  PaginatedSelectableList.isAscending after = false
  /\ PaginatedSelectableList.hits after = [23; 32; 11]
  /\ Sorted
       (PaginatedSelectableList.ascending Nat.compare
          (PaginatedSelectableList.accessor lastDigit scope))
       (rev (PaginatedSelectableList.hits after)).
Proof.
  cbv zeta. split; [reflexivity | split; [reflexivity |]].
  destruct (@sortHits_orders_the_hits_by_the_accessor
              nat nat unit unit lastDigit Nat.compare
              (PaginatedSelectableList.mkScope 10 [11; 23; 32] (Some "digit")
                 (Some (fun n : nat => n)) None false [11; 23; 32] 3 true)
              [11; 23; 32]
              (fun a b => Nat.compare_antisym b a))
    as (_ & Hdescending & _).
  exact (Hdescending eq_refl).
Defined.

End OnNumbers.
